(** * The [pir] OpenCL kernel of talek (pircl/kernel.c)

    A shallow embedding of the two-phase minimum reduction: a grid-stride
    scan per work-item, a tree reduction over the work-group's [scratch]
    array, and the publication of [scratch[0]] by local work-item 0.

    The embedding keeps the C types of the source.  [int] is a 32-bit
    two's-complement integer, [ulong] a 64-bit unsigned integer, [float] an
    IEEE-754 binary32 value.  Every assignment between a [ulong] object and
    a [float] object is an implicit conversion of the value; the embedding
    writes each of them out.  An integer becomes the nearest [float], ties
    to even; a [float] becomes an integer by truncation, and the result is
    left to the platform when the truncation is not a [ulong].

    A launch is a number of work-groups of one size, with global work
    offset 0, so that [get_global_id(0)] is
    [get_group_id(0) * get_local_size(0) + get_local_id(0)] and
    [get_global_size(0)] the product of the two sizes.  The work-items of a
    group run from barrier to barrier; between two barriers they are taken
    in the order of their local ids, and [round_any_order] shows that any
    other order reaches the barrier with the same [scratch]. *)

From Stdlib Require Import ZArith Lia Bool.
From Stdlib Require Import Floats.SpecFloat.
From stdpp Require Import base option list.

Open Scope Z_scope.

(** ** Machine integers *)

(** Conversion of an integer value to [int]: reduction modulo [2^32] into
    [-2^31 .. 2^31-1]. *)
Definition sint32 (z : Z) : Z := (z + 2 ^ 31) mod 2 ^ 32 - 2 ^ 31.

Definition ULONG_MAX : Z := 2 ^ 64 - 1.

(** ** binary32 *)

Definition float : Type := spec_float.

Definition prec : Z := 24.
Definition emax : Z := 128.

Definition INFINITY : float := S754_infinity false.

(** [a < b] on [float]; false as soon as one side is a NaN. *)
Definition float_lt (a b : float) : bool := SFltb a b.

(** [(a < b) ? a : b], the selection both phases of the kernel use. *)
Definition select_min (a b : float) : float := if float_lt a b then a else b.

(** [ulong] to [float]: the value rounded to the nearest binary32, ties to
    even. *)
Definition ulong_to_float (z : Z) : float := binary_normalize prec emax z 0 false.

(** The magnitude of a finite float, truncated towards zero. *)
Definition truncate (m : positive) (e : Z) : Z :=
  if 0 <=? e then Z.pos m * 2 ^ e else Z.pos m / 2 ^ (- e).

(** The 2^64 of binary32, the image of the largest [ulong] values. *)
Definition two_64 : float := S754_finite false 8388608 41.

(** The bit-level reading of a 32-bit pattern as a binary32 value: sign in
    bit 31, biased exponent in bits 30..23, fraction in bits 22..0. *)
Definition float_of_bits (b : Z) : float :=
  let s := Z.testbit b 31 in
  let e := Z.land (Z.shiftr b 23) 255 in
  let m := Z.land b (2 ^ 23 - 1) in
  if e =? 0 then
    if m =? 0 then S754_zero s else S754_finite s (Z.to_pos m) (- 149)
  else if e =? 255 then
    if m =? 0 then S754_infinity s else S754_nan
  else S754_finite s (Z.to_pos (m + 2 ^ 23)) (e - 150).

(** Reading a 64-bit cell as if it contained a float-width value: the low
    word and the high word of the cell. *)
Definition reinterpret_low (cell : Z) : float := float_of_bits (cell mod 2 ^ 32).
Definition reinterpret_high (cell : Z) : float := float_of_bits (cell / 2 ^ 32).

(** ** Outcomes of a run *)

Inductive outcome (A : Type) : Type :=
| Ok (a : A)
| OutOfBounds (index : Z)
| OutOfFuel.
Arguments Ok {A} a.
Arguments OutOfBounds {A} index.
Arguments OutOfFuel {A}.

#[global] Instance outcome_bind : MBind outcome := fun A B k x =>
  match x with
  | Ok a => k a
  | OutOfBounds i => OutOfBounds i
  | OutOfFuel => OutOfFuel
  end.

Fixpoint foldM {A S : Type} (f : A -> S -> outcome S) (l : list A) (s : S)
  : outcome S :=
  match l with
  | [] => Ok s
  | a :: l' => s' ← f a s; foldM f l' s'
  end.

Fixpoint mapM {A B : Type} (f : A -> outcome B) (l : list A) : outcome (list B) :=
  match l with
  | [] => Ok []
  | a :: l' => b ← f a; bs ← mapM f l'; Ok (b :: bs)
  end.

(** ** Memory objects *)

(** What a pointer gives access to: the cell at an index, or nothing when
    the index is outside the object. *)
Definition memory : Type := Z -> outcome Z.

Definition read (cells : list Z) : memory :=
  fun i =>
    if 0 <=? i then
      match cells !! Z.to_nat i with
      | Some v => Ok v
      | None => OutOfBounds i
      end
    else OutOfBounds i.

Definition write (cells : list Z) (i : Z) (v : Z) : outcome (list Z) :=
  if (0 <=? i) && (i <? Z.of_nat (length cells))
  then Ok (<[Z.to_nat i := v]> cells)
  else OutOfBounds i.

(** A zero-filled object of [n] cells. *)
Definition zeroed (n : Z) : memory :=
  fun i => if (0 <=? i) && (i <? n) then Ok 0 else OutOfBounds i.

(** ** The kernel *)

Section Kernel.

(** The result of converting a [float] whose truncation is not a [ulong]
    value (an infinity, a NaN, 2^64 and above, -1 and below) is
    implementation-defined in OpenCL C. *)
Variable out_of_range : float -> Z.

(** [float] to [ulong]: truncation towards zero. *)
Definition float_to_ulong (f : float) : Z :=
  match f with
  | S754_zero _ => 0
  | S754_finite s m e =>
      let t := truncate m e in
      if s then (if t =? 0 then 0 else out_of_range f mod 2 ^ 64)
      else if t <? 2 ^ 64 then t else out_of_range f mod 2 ^ 64
  | _ => out_of_range f mod 2 ^ 64
  end.

(** *** Phase 1: the grid-stride scan

    [while (global_index < length)] with its body.  [visited] records the
    indices at which [buffer] has been read, oldest first. *)
Fixpoint scan (fuel : nat) (buffer : memory) (length global_size : Z)
    (global_index : Z) (accumulator : float) (visited : list Z)
  : outcome (float * list Z) :=
  match fuel with
  | O => OutOfFuel
  | S fuel' =>
      if global_index <? length then
        cell ← buffer global_index;
        let visited := visited ++ [global_index] in
        let element := ulong_to_float cell in
        let accumulator := select_min accumulator element in
        let global_index := sint32 (global_index + global_size) in
        scan fuel' buffer length global_size global_index accumulator visited
      else Ok (accumulator, visited)
  end.

(** The scan of the work-item with global id [global_id]:
    [int global_index = get_global_id(0); float accumulator = INFINITY;]
    and the loop. *)
Definition scan_item (fuel : nat) (buffer : memory) (length global_size : Z)
    (global_id : Z) : outcome (float * list Z) :=
  scan fuel buffer length global_size (sint32 global_id) INFINITY [].

(** *** Phase 2: the tree reduction *)

(** [scratch[local_index] = accumulator;] of the work-item with local id
    [local_id]. *)
Definition store_item (scratch : list Z) (local_id : Z) (accumulator : float)
  : outcome (list Z) :=
  write scratch (sint32 local_id) (float_to_ulong accumulator).

Fixpoint store_all (local_id : Z) (accumulators : list float) (scratch : list Z)
  : outcome (list Z) :=
  match accumulators with
  | [] => Ok scratch
  | a :: rest =>
      scratch ← store_item scratch local_id a;
      store_all (local_id + 1) rest scratch
  end.

(** The value one work-item stores in a round, from the two cells it
    read. *)
Definition fold_cells (mine_cell other_cell : Z) : Z :=
  let other := ulong_to_float other_cell in
  let mine := ulong_to_float mine_cell in
  float_to_ulong (if float_lt mine other then mine else other).

(** The body of the [for] loop for the work-item with local id
    [local_id], up to the barrier. *)
Definition fold_item (offset : Z) (local_id : Z) (scratch : list Z)
  : outcome (list Z) :=
  let local_index := sint32 local_id in
  if local_index <? offset then
    other_cell ← read scratch (sint32 (local_index + offset));
    mine_cell ← read scratch local_index;
    write scratch local_index (fold_cells mine_cell other_cell)
  else Ok scratch.

(** One round: every work-item of the group runs the body, then all meet
    at the barrier.  The work-items are taken in the order of their local
    ids. *)
Definition round (local_size : Z) (offset : Z) (scratch : list Z)
  : outcome (list Z) :=
  foldM (fold_item offset) (seqZ 0 local_size) scratch.

(** [for (...; offset > 0; offset = offset / 2)].  [offsets] records the
    offset of every round run, oldest first. *)
Fixpoint reduce_loop (fuel : nat) (local_size : Z) (offset : Z)
    (scratch : list Z) (offsets : list Z) : outcome (list Z * list Z) :=
  match fuel with
  | O => OutOfFuel
  | S fuel' =>
      if 0 <? offset then
        scratch ← round local_size offset scratch;
        reduce_loop fuel' local_size (Z.quot offset 2) scratch
          (offsets ++ [offset])
      else Ok (scratch, offsets)
  end.

(** The loop from its initialiser [int offset = get_local_size(0) / 2]. *)
Definition reduce (fuel : nat) (local_size : Z) (scratch : list Z)
  : outcome (list Z * list Z) :=
  reduce_loop fuel local_size (sint32 (local_size / 2)) scratch [].

(** [if (local_index == 0) output[get_group_id(0)] = scratch[0];] for the
    work-item with local id [local_id]. *)
Definition publish_item (group_id : Z) (scratch : list Z) (local_id : Z)
    (output : list Z) : outcome (list Z) :=
  let local_index := sint32 local_id in
  if local_index =? 0 then
    cell ← read scratch 0;
    write output group_id cell
  else Ok output.

(** *** One work-group, then the whole launch *)

(** The state a work-group leaves behind. *)
Record group_run : Type := GroupRun {
  accumulators : list float;   (* per work-item, after the scan *)
  stored : list Z;             (* [scratch] at the first barrier *)
  reduced : list Z;            (* [scratch] after the loop *)
  rounds : list Z;             (* the offsets of the rounds run *)
  published : list Z           (* [output] after the group's write *)
}.

Definition run_group (fuel : nat) (buffer : list Z) (length : Z)
    (num_groups local_size : Z) (group_id : Z) (scratch output : list Z)
  : outcome group_run :=
  let global_size := num_groups * local_size in
  scans ← mapM (fun local_id =>
                   scan_item fuel (read buffer) length global_size
                     (group_id * local_size + local_id))
                (seqZ 0 local_size);
  let accs := fst <$> scans in
  stored ← store_all 0 accs scratch;
  '(reduced, offsets) ← reduce fuel local_size stored;
  output ← foldM (publish_item group_id reduced) (seqZ 0 local_size) output;
  Ok (GroupRun accs stored reduced offsets output).

(** The kernel over a launch of [num_groups] work-groups of [local_size]
    work-items each.  [scratch] is the local memory every group starts
    from; [mask] is the kernel's second argument.  The result is [output]
    after the last group together with every group's final [scratch]. *)
Definition pir_group (fuel : nat) (buffer : list Z) (mask : list Z)
    (length : Z) (num_groups local_size : Z) (scratch : list Z)
    (group_id : Z) (st : list Z * list (list Z))
  : outcome (list Z * list (list Z)) :=
  r ← run_group fuel buffer length num_groups local_size group_id scratch
        (fst st);
  Ok (published r, snd st ++ [reduced r]).

Definition pir (fuel : nat) (buffer : list Z) (mask : list Z)
    (scratch : list Z) (length : Z) (output : list Z)
    (num_groups local_size : Z) : outcome (list Z * list (list Z)) :=
  foldM (pir_group fuel buffer mask length num_groups local_size scratch)
        (seqZ 0 num_groups) (output, []).

End Kernel.

(** Two behaviours of real devices for the out-of-range conversion:
    saturation, and the zero result. *)
Definition saturating : float -> Z := fun _ => ULONG_MAX.
Definition zeroing : float -> Z := fun _ => 0.

(** ** What the kernel is expected to compute

    The definitions below do not come from the source: they are the terms
    in which the results about the kernel are stated. *)

(** *** The scan *)

(** The indices [g, g+W, g+2W, ...] below [L]. *)
Definition stride (g W L : Z) : list Z :=
  (fun k => g + k * W) <$> seqZ 0 ((L - g + W - 1) / W).

(** The cell a memory object holds at an index (0 outside the object). *)
Definition cell_at (buffer : memory) (i : Z) : Z :=
  match buffer i with Ok c => c | _ => 0 end.

(** The running minimum of the source, over a list of cells. *)
Definition fold_elements (accumulator : float) (cells : list Z) : float :=
  foldl (fun acc cell => select_min acc (ulong_to_float cell)) accumulator cells.

(** The running minimum over the cells read as bit patterns of floats, as
    the specification words it. *)
Definition fold_reinterpreted (accumulator : float) (cells : list Z) : float :=
  foldl (fun acc cell => select_min acc (reinterpret_low cell)) accumulator cells.

(** The mantissa of the binary32 image of an integer below 2^24. *)
Definition mantissa24 (p : positive) : positive :=
  match (24 - Z.pos (digits2_pos p))%Z with
  | Z.pos k => Pos.iter xO p k
  | _ => p
  end.

(** *** Minima *)

(** The minimum of a list of [ulong] cells; [ULONG_MAX] for no cell. *)
Definition cells_min (cells : list Z) : Z := foldr Z.min ULONG_MAX cells.

(** The least element of a non-empty list of cells. *)
Definition is_minimum (m : Z) (cells : list Z) : Prop :=
  m ∈ cells /\ forall x, x ∈ cells -> m <= x.

(** The accumulators the scan leaves on cells below 2^24: the seed, or the
    image of such a cell. *)
Definition exact_or_idle (a : float) : Prop :=
  a = INFINITY \/ exists c, 0 <= c < 2 ^ 24 /\ a = ulong_to_float c.

(** Their integer value, with [ULONG_MAX] for the seed. *)
Definition decode (a : float) : Z := float_to_ulong saturating a.

(** A platform on which the out-of-range conversions of the kernel give
    the largest [ulong]. *)
Definition saturates (out_of_range : float -> Z) : Prop :=
  out_of_range INFINITY mod 2 ^ 64 = ULONG_MAX /\
  out_of_range two_64 mod 2 ^ 64 = ULONG_MAX.

(** The cells on which the conversions of a round are exact: the integers
    below 2^24 and, on a saturating platform, [ULONG_MAX]. *)
Definition good (out_of_range : float -> Z) (z : Z) : Prop :=
  0 <= z < 2 ^ 24 \/ (z = ULONG_MAX /\ saturates out_of_range).

(** *** The rounds *)

(** [scratch] at the barrier that ends the round with offset [o]. *)
Definition round_result (out_of_range : float -> Z) (o : Z) (scratch : list Z)
  : list Z :=
  imap (fun i x =>
          if Z.of_nat i <? o
          then fold_cells out_of_range x (scratch !!! (i + Z.to_nat o)%nat)
          else x) scratch.

(** [scratch] in the middle of that round, when the work-items whose local
    ids are in [done] have run the body and the others have not. *)
Definition round_after (out_of_range : float -> Z) (done : list Z) (o : Z)
    (scratch : list Z) : list Z :=
  imap (fun i x =>
          if bool_decide (Z.of_nat i ∈ done) && (Z.of_nat i <? o)
          then fold_cells out_of_range x (scratch !!! (i + Z.to_nat o)%nat)
          else x) scratch.

(** The offsets of the rounds the loop runs when entered with [o]. *)
Fixpoint chain (fuel : nat) (o : Z) : list Z :=
  match fuel with
  | O => []
  | S fuel' => if 0 <? o then o :: chain fuel' (Z.quot o 2) else []
  end.

(** The offsets of the rounds of a group of [N] work-items, in closed
    form: [N/2, N/4, ..., 1]. *)
Definition halvings (N : Z) : list Z :=
  (fun k => N / 2 ^ (k + 1)) <$> seqZ 0 (Z.log2 N).

(** The number of binary digits of a non-negative integer. *)
Definition bits (o : Z) : Z := if o =? 0 then 0 else Z.log2 o + 1.

(** [scratch] after the rounds with the offsets [offs], oldest first. *)
Definition tree (out_of_range : float -> Z) (offs : list Z) (scratch : list Z)
  : list Z :=
  foldl (fun s o => round_result out_of_range o s) scratch offs.

(** The slots folded into slot 0 by the rounds with the offsets [offs]. *)
Definition folded (offs : list Z) : list nat :=
  foldr (fun o r => r ++ ((fun j => (j + Z.to_nat o)%nat) <$> r)) [0%nat] offs.

(** Offsets that at least halve from one round to the next, the first one
    at most half of [b]. *)
Fixpoint descending (b : Z) (offs : list Z) : Prop :=
  match offs with
  | [] => True
  | o :: rest => 0 < o /\ 2 * o <= b /\ descending o rest
  end.

(** What a round makes of two equal cells. *)
Definition settle (out_of_range : float -> Z) (cell : Z) : Z :=
  fold_cells out_of_range cell cell.

(** The cell a group of [N] idle work-items publishes: the seed converted
    to [ulong], then passed through one round per halving of [N]. *)
Definition idle_cell (out_of_range : float -> Z) (N : Z) : Z :=
  Nat.iter (Z.to_nat (Z.log2 N)) (settle out_of_range)
    (float_to_ulong out_of_range INFINITY).

(** *** A launch of [G] groups of [N] work-items on [L] cells *)

(** The cells the work-item with global id [g] visits. *)
Definition item_cells (buffer : list Z) (L G N : Z) (g : Z) : list Z :=
  cell_at (read buffer) <$> stride g (G * N) L.

(** The accumulators of group [grp] at the end of the scan. *)
Definition accs_of (buffer : list Z) (L G N : Z) (grp : Z) : list float :=
  (fun li => fold_elements INFINITY (item_cells buffer L G N (grp * N + li)))
    <$> seqZ 0 N.

(** [scratch] of group [grp] at the first barrier. *)
Definition stored_of (out_of_range : float -> Z) (buffer scratch : list Z)
    (L G N : Z) (grp : Z) : list Z :=
  (float_to_ulong out_of_range <$> accs_of buffer L G N grp)
    ++ drop (Z.to_nat N) scratch.

(** The offsets of the rounds a group runs. *)
Definition rounds_of (fuel : nat) (N : Z) : list Z := chain fuel (N / 2).

(** [scratch] of group [grp] after the loop. *)
Definition reduced_of (out_of_range : float -> Z) (fuel : nat)
    (buffer scratch : list Z) (L G N : Z) (grp : Z) : list Z :=
  tree out_of_range (rounds_of fuel N)
    (stored_of out_of_range buffer scratch L G N grp).

(** The value group [grp] publishes. *)
Definition value_of (out_of_range : float -> Z) (fuel : nat)
    (buffer scratch : list Z) (L G N : Z) (grp : Z) : Z :=
  reduced_of out_of_range fuel buffer scratch L G N grp !!! 0%nat.

(** *** Floats in the order of the comparison *)

(** The floats the comparison of the kernel orders in a line: the zero,
    the positive finite ones and positive infinity. *)
Definition ordered (f : float) : Prop :=
  match f with
  | S754_zero false | S754_finite false _ _ | S754_infinity false => True
  | _ => False
  end.

(** ** Facts about binary32 *)

Section Binary32.

Lemma digits2_pos_bounds (p : positive) :
  2 ^ (Z.pos (digits2_pos p) - 1) <= Z.pos p < 2 ^ Z.pos (digits2_pos p).
Proof.
  induction p as [p IH | p IH |]; cbn [digits2_pos].
  - rewrite Pos2Z.inj_succ.
    replace (Z.succ (Z.pos (digits2_pos p)) - 1)
      with (Z.succ (Z.pos (digits2_pos p) - 1)) by lia.
    rewrite !Z.pow_succ_r by lia. lia.
  - rewrite Pos2Z.inj_succ.
    replace (Z.succ (Z.pos (digits2_pos p)) - 1)
      with (Z.succ (Z.pos (digits2_pos p) - 1)) by lia.
    rewrite !Z.pow_succ_r by lia. lia.
  - cbn. lia.
Qed.

Lemma digits2_pos_le (p : positive) (n : Z) :
  Z.pos p < 2 ^ n -> Z.pos (digits2_pos p) <= n.
Proof.
  intros Hp. destruct (digits2_pos_bounds p) as [Hlo _].
  destruct (Z_lt_le_dec n (Z.pos (digits2_pos p))) as [Hlt | ]; [ | lia].
  destruct (Z_lt_le_dec n 0) as [Hneg | Hnn].
  - rewrite Z.pow_neg_r in Hp by lia. lia.
  - assert (2 ^ n <= 2 ^ (Z.pos (digits2_pos p) - 1))
      by (apply Z.pow_le_mono_r; lia).
    lia.
Qed.

Lemma iter_xO_value (p k : positive) :
  Z.pos (Pos.iter xO p k) = Z.pos p * 2 ^ Z.pos k.
Proof.
  induction k as [ | k IH] using Pos.peano_ind.
  - cbn. lia.
  - rewrite Pos.iter_succ, Pos2Z.inj_succ, Z.pow_succ_r by lia.
    rewrite Pos2Z.inj_xO, IH. lia.
Qed.

Lemma iter_xO_digits (p k : positive) :
  digits2_pos (Pos.iter xO p k) = (digits2_pos p + k)%positive.
Proof.
  induction k as [ | k IH] using Pos.peano_ind.
  - cbn. lia.
  - rewrite Pos.iter_succ. cbn [digits2_pos]. rewrite IH. lia.
Qed.

(** A 24-digit mantissa with an exponent in range is left alone by the
    rounding. *)
Lemma binary_round_aux_canonical (m : positive) (e : Z) :
  Z.pos (digits2_pos m) = 24 -> -149 <= e <= 104 ->
  binary_round_aux prec emax false (Z.pos m) e loc_Exact = S754_finite false m e.
Proof.
  intros Hd He.
  unfold binary_round_aux, shr_fexp, Zdigits2, fexp, emin, prec, emax.
  cbn [shr_record_of_loc]. rewrite Hd.
  replace (Z.max (24 + e - 24) (3 - 128 - 24) - e) with 0 by lia.
  cbn [shr shr_m loc_of_shr_record round_nearest_even shr_record_of_loc Zdigits2].
  rewrite Hd.
  replace (Z.max (24 + e - 24) (3 - 128 - 24) - e) with 0 by lia.
  cbn [shr shr_m].
  destruct (Z.leb_spec e (128 - 24)); [reflexivity | lia].
Qed.

Lemma ulong_to_float_small (p : positive) :
  Z.pos p < 2 ^ 24 ->
  ulong_to_float (Z.pos p)
  = S754_finite false (mantissa24 p) (Z.pos (digits2_pos p) - 24).
Proof.
  intros Hp. pose proof (digits2_pos_le p 24 Hp) as Hd.
  unfold ulong_to_float, binary_normalize, binary_round, shl_align, mantissa24.
  unfold fexp at 1 2, emin, prec, emax.
  replace (Z.max (Z.pos (digits2_pos p) + 0 - 24) (3 - 128 - 24))
    with (Z.pos (digits2_pos p) - 24) by lia.
  replace (Z.pos (digits2_pos p) - 24 - 0) with (- (24 - Z.pos (digits2_pos p))) by lia.
  destruct (24 - Z.pos (digits2_pos p)) as [ | k | k] eqn:Hk; cbn [Z.opp].
  - replace (Z.pos (digits2_pos p) - 24) with 0 by lia.
    apply binary_round_aux_canonical; lia.
  - apply binary_round_aux_canonical; [ | lia].
    rewrite iter_xO_digits, Pos2Z.inj_add. lia.
  - lia.
Qed.

Lemma mantissa24_value (p : positive) :
  Z.pos p < 2 ^ 24 ->
  Z.pos (mantissa24 p) = Z.pos p * 2 ^ (24 - Z.pos (digits2_pos p)).
Proof.
  intros Hp. pose proof (digits2_pos_le p 24 Hp) as Hd. unfold mantissa24.
  destruct (24 - Z.pos (digits2_pos p)) as [ | k | k] eqn:Hk.
  - cbn. lia.
  - apply iter_xO_value.
  - lia.
Qed.

Lemma truncate_small (p : positive) :
  Z.pos p < 2 ^ 24 ->
  truncate (mantissa24 p) (Z.pos (digits2_pos p) - 24) = Z.pos p.
Proof.
  intros Hp. pose proof (digits2_pos_le p 24 Hp) as Hd.
  unfold truncate. rewrite mantissa24_value by assumption.
  destruct (Z.leb_spec 0 (Z.pos (digits2_pos p) - 24)) as [H0 | H0].
  - replace (Z.pos (digits2_pos p) - 24) with 0 by lia.
    replace (24 - Z.pos (digits2_pos p)) with 0 by lia. cbn. lia.
  - replace (- (Z.pos (digits2_pos p) - 24)) with (24 - Z.pos (digits2_pos p)) by lia.
    apply Z.div_mul. apply Z.pow_nonzero; lia.
Qed.

(** The comparison of the images of two small integers is the comparison
    of the integers. *)
Lemma float_lt_small (a b : Z) :
  0 <= a < 2 ^ 24 -> 0 <= b < 2 ^ 24 ->
  float_lt (ulong_to_float a) (ulong_to_float b) = (a <? b).
Proof.
  intros Ha Hb. unfold float_lt, SFltb.
  destruct a as [ | p | p]; [ | | lia]; (destruct b as [ | q | q]; [ | | lia]).
  - reflexivity.
  - rewrite (ulong_to_float_small q) by lia. reflexivity.
  - rewrite (ulong_to_float_small p) by lia. reflexivity.
  - rewrite (ulong_to_float_small p), (ulong_to_float_small q) by lia.
    cbn [SFcompare].
    pose proof (digits2_pos_bounds p) as [Hp1 Hp2].
    pose proof (digits2_pos_bounds q) as [Hq1 Hq2].
    pose proof (digits2_pos_le p 24 ltac:(lia)) as Hdp.
    pose proof (digits2_pos_le q 24 ltac:(lia)) as Hdq.
    destruct (Z.compare_spec (Z.pos (digits2_pos p) - 24) (Z.pos (digits2_pos q) - 24))
      as [He | He | He].
    + assert (Hd : Z.pos (digits2_pos p) = Z.pos (digits2_pos q)) by lia.
      change (Pos.compare_cont Eq (mantissa24 p) (mantissa24 q))
        with (Z.pos (mantissa24 p) ?= Z.pos (mantissa24 q)).
      rewrite !mantissa24_value, Hd by lia.
      assert (0 < 2 ^ (24 - Z.pos (digits2_pos q))) by (apply Z.pow_pos_nonneg; lia).
      destruct (Z.compare_spec (Z.pos p * 2 ^ (24 - Z.pos (digits2_pos q)))
                  (Z.pos q * 2 ^ (24 - Z.pos (digits2_pos q))));
        destruct (Z.ltb_spec (Z.pos p) (Z.pos q)); try reflexivity; nia.
    + assert (2 ^ Z.pos (digits2_pos p) <= 2 ^ (Z.pos (digits2_pos q) - 1))
        by (apply Z.pow_le_mono_r; lia).
      destruct (Z.ltb_spec (Z.pos p) (Z.pos q)); [reflexivity | lia].
    + assert (2 ^ Z.pos (digits2_pos q) <= 2 ^ (Z.pos (digits2_pos p) - 1))
        by (apply Z.pow_le_mono_r; lia).
      destruct (Z.ltb_spec (Z.pos p) (Z.pos q)); [lia | reflexivity].
Qed.

Lemma float_lt_INFINITY (x : float) : float_lt INFINITY x = false.
Proof. destruct x as [ | [ | ] | | ]; reflexivity. Qed.

Lemma select_min_INFINITY (x : float) : select_min INFINITY x = x.
Proof. unfold select_min. now rewrite float_lt_INFINITY. Qed.

Lemma select_min_small (a b : Z) :
  0 <= a < 2 ^ 24 -> 0 <= b < 2 ^ 24 ->
  select_min (ulong_to_float a) (ulong_to_float b) = ulong_to_float (Z.min a b).
Proof.
  intros Ha Hb. unfold select_min. rewrite float_lt_small by assumption.
  destruct (Z.ltb_spec a b); f_equal; lia.
Qed.

Lemma ulong_to_float_ULONG_MAX : ulong_to_float ULONG_MAX = two_64.
Proof. reflexivity. Qed.

Lemma float_lt_small_two_64 (a : Z) :
  0 <= a < 2 ^ 24 -> float_lt (ulong_to_float a) two_64 = true.
Proof.
  intros Ha. destruct a as [ | p | p]; [reflexivity | | lia].
  rewrite ulong_to_float_small by lia.
  pose proof (digits2_pos_le p 24 ltac:(lia)).
  unfold float_lt, SFltb, two_64. cbn [SFcompare].
  destruct (Z.compare_spec (Z.pos (digits2_pos p) - 24) 41); try reflexivity; lia.
Qed.

Lemma float_lt_two_64_small (a : Z) :
  0 <= a < 2 ^ 24 -> float_lt two_64 (ulong_to_float a) = false.
Proof.
  intros Ha. destruct a as [ | p | p]; [reflexivity | | lia].
  rewrite ulong_to_float_small by lia.
  pose proof (digits2_pos_le p 24 ltac:(lia)).
  unfold float_lt, SFltb, two_64. cbn [SFcompare].
  destruct (Z.compare_spec 41 (Z.pos (digits2_pos p) - 24)); try reflexivity; lia.
Qed.

Lemma float_lt_small_INFINITY (a : Z) :
  0 <= a < 2 ^ 24 -> float_lt (ulong_to_float a) INFINITY = true.
Proof.
  intros Ha. destruct a as [ | p | p]; [reflexivity | | lia].
  now rewrite ulong_to_float_small by lia.
Qed.

(** *** No [ulong] converts to an infinity *)

Lemma shr_1_bounds (mrs : shr_record) :
  0 <= shr_m mrs -> 0 <= shr_m (shr_1 mrs) <= shr_m mrs.
Proof.
  destruct mrs as [m r t]. destruct m as [ | [p | p | ] | p]; cbn; lia.
Qed.

Lemma iter_shr_1_bounds (n : positive) (mrs : shr_record) :
  0 <= shr_m mrs -> 0 <= shr_m (SpecFloat.iter_pos shr_1 n mrs) <= shr_m mrs.
Proof.
  revert mrs. induction n as [n IH | n IH | ]; intros mrs Hm; cbn [SpecFloat.iter_pos].
  - pose proof (shr_1_bounds mrs Hm) as H1.
    pose proof (IH (shr_1 mrs) ltac:(lia)) as H2.
    pose proof (IH (SpecFloat.iter_pos shr_1 n (shr_1 mrs)) ltac:(lia)). lia.
  - pose proof (IH mrs Hm) as H1.
    pose proof (IH (SpecFloat.iter_pos shr_1 n mrs) ltac:(lia)). lia.
  - now apply shr_1_bounds.
Qed.

Lemma shr_fexp_bounds (m e : Z) (l : location) :
  0 <= m ->
  0 <= shr_m (fst (shr_fexp prec emax m e l)) <= m /\
  e <= snd (shr_fexp prec emax m e l) <= Z.max e (fexp prec emax (Zdigits2 m + e)).
Proof.
  intros Hm. unfold shr_fexp, shr.
  assert (Hrec : shr_m (shr_record_of_loc m l) = m)
    by (destruct l as [ | [ | | ] ]; reflexivity).
  destruct (fexp prec emax (Zdigits2 m + e) - e) as [ | n | n] eqn:Hn; cbn [fst snd].
  - rewrite Hrec. lia.
  - pose proof (iter_shr_1_bounds n (shr_record_of_loc m l) ltac:(lia)). lia.
  - rewrite Hrec. lia.
Qed.

Lemma round_nearest_even_bounds (m : Z) (l : location) :
  m <= round_nearest_even m l <= m + 1.
Proof.
  destruct l as [ | [ | | ] ]; cbn; try destruct (Z.even m); lia.
Qed.

Lemma Zdigits2_le (m n : Z) : 0 <= n -> 0 <= m < 2 ^ n -> Zdigits2 m <= n.
Proof.
  intros Hn Hm. destruct m as [ | p | p]; cbn; [lia | | lia].
  apply digits2_pos_le. lia.
Qed.

Lemma binary_round_aux_finite (m e : Z) :
  0 <= m < 2 ^ 64 -> -23 <= e <= 0 ->
  binary_round_aux prec emax false m e loc_Exact <> INFINITY.
Proof.
  intros Hm He. unfold binary_round_aux.
  pose proof (shr_fexp_bounds m e loc_Exact ltac:(lia)) as [Hm1 He1].
  destruct (shr_fexp prec emax m e loc_Exact) as [mrs1 e1]. cbn [fst snd] in *.
  pose proof (round_nearest_even_bounds (shr_m mrs1) (loc_of_shr_record mrs1)) as Hr.
  set (m1 := round_nearest_even (shr_m mrs1) (loc_of_shr_record mrs1)) in *.
  pose proof (shr_fexp_bounds m1 e1 loc_Exact ltac:(lia)) as [Hm2 He2].
  destruct (shr_fexp prec emax m1 e1 loc_Exact) as [mrs2 e2]. cbn [fst snd] in *.
  pose proof (Zdigits2_le m 64 ltac:(lia) ltac:(lia)) as Hd.
  pose proof (Zdigits2_le m1 65 ltac:(lia) ltac:(lia)) as Hd1.
  unfold fexp, emin, prec, emax in *.
  destruct (shr_m mrs2) as [ | p | p]; try discriminate.
  destruct (Z.leb_spec e2 (128 - 24)); [discriminate | lia].
Qed.

Lemma ulong_to_float_finite (z : Z) :
  0 <= z < 2 ^ 64 -> ulong_to_float z <> INFINITY.
Proof.
  intros Hz. destruct z as [ | p | p]; [discriminate | | lia].
  unfold ulong_to_float, binary_normalize, binary_round, shl_align.
  pose proof (digits2_pos_le p 64 ltac:(lia)) as Hd.
  pose proof (digits2_pos_bounds p) as [_ Hhi].
  unfold fexp at 1 2, emin, prec, emax.
  replace (Z.max (Z.pos (digits2_pos p) + 0 - 24) (3 - 128 - 24))
    with (Z.pos (digits2_pos p) - 24) by lia.
  destruct (Z.pos (digits2_pos p) - 24 - 0) as [ | k | k] eqn:Hk.
  - apply binary_round_aux_finite; lia.
  - apply binary_round_aux_finite; lia.
  - apply binary_round_aux_finite; [ | lia].
    rewrite iter_xO_value. split; [lia | ].
    assert (Z.pos p * 2 ^ Z.pos k < 2 ^ Z.pos (digits2_pos p) * 2 ^ Z.pos k)
      by (apply Z.mul_lt_mono_pos_r; [apply Z.pow_pos_nonneg | ]; lia).
    rewrite <- Z.pow_add_r in H by lia.
    replace (Z.pos (digits2_pos p) + Z.pos k) with 24 in H by lia. lia.
Qed.

End Binary32.

(** ** The grid-stride scan *)

Lemma sint32_id (z : Z) : - 2 ^ 31 <= z < 2 ^ 31 -> sint32 z = z.
Proof.
  intros Hz. unfold sint32. rewrite Z.mod_small; lia.
Qed.

Lemma sint32_range (z : Z) : - 2 ^ 31 <= sint32 z < 2 ^ 31.
Proof.
  unfold sint32. pose proof (Z.mod_pos_bound (z + 2 ^ 31) (2 ^ 32)). lia.
Qed.

Section Stride.
Variables W L : Z.
Hypothesis W_pos : 1 <= W.

Lemma stride_nil (g : Z) : L <= g -> stride g W L = [].
Proof.
  intros Hg. unfold stride. rewrite seqZ_nil; [reflexivity | ].
  assert ((L - g + W - 1) / W < 1); [ | lia].
  apply Z.div_lt_upper_bound; lia.
Qed.

Lemma stride_cons (g : Z) : g < L -> stride g W L = g :: stride (g + W) W L.
Proof.
  intros Hg. unfold stride.
  replace (L - g + W - 1) with (L - (g + W) + W - 1 + 1 * W) by lia.
  rewrite Z.div_add by lia.
  assert (0 <= (L - (g + W) + W - 1) / W) by (apply Z.div_pos; lia).
  rewrite seqZ_cons by lia. rewrite fmap_cons. f_equal; [lia | ].
  replace (Z.pred ((L - (g + W) + W - 1) / W + 1))
    with ((L - (g + W) + W - 1) / W) by lia.
  change (Z.succ 0) with (1 + 0). rewrite <- fmap_add_seqZ, <- list_fmap_compose.
  apply list_fmap_ext. intros _ k _. cbn. lia.
Qed.

Lemma elem_of_stride (g i : Z) :
  i ∈ stride g W L <-> exists k, 0 <= k /\ i = g + k * W /\ i < L.
Proof.
  unfold stride. rewrite list_elem_of_fmap. setoid_rewrite elem_of_seqZ. split.
  - intros (k & -> & Hk). exists k. split; [lia | split; [reflexivity | ] ].
    assert (k + 1 <= (L - g + W - 1) / W) as Hle by lia.
    assert (W * (k + 1) <= L - g + W - 1); [ | lia].
    etransitivity; [apply Z.mul_le_mono_nonneg_l; [lia | exact Hle] | ].
    apply Z.mul_div_le; lia.
  - intros (k & Hk & -> & Hlt). exists k. split; [reflexivity | ].
    split; [lia | ]. rewrite Z.add_0_l.
    assert (k + 1 <= (L - g + W - 1) / W); [ | lia].
    apply Z.div_le_lower_bound; lia.
Qed.

Lemma NoDup_stride (g : Z) : NoDup (stride g W L).
Proof.
  unfold stride. apply NoDup_fmap_2; [ | apply NoDup_seqZ].
  intros a b Hab. nia.
Qed.

(** Every index below [L] belongs to the stride of one global id below
    [W], its residue. *)
Lemma stride_partition (i : Z) :
  0 <= i < L ->
  (0 <= i mod W < W /\ i ∈ stride (i mod W) W L) /\
  (forall g, 0 <= g < W -> i ∈ stride g W L -> g = i mod W).
Proof.
  intros Hi. pose proof (Z.mod_pos_bound i W ltac:(lia)) as Hm. split.
  - split; [exact Hm | ]. apply elem_of_stride. exists (i / W).
    split; [apply Z.div_pos; lia | ].
    split; [ | lia]. rewrite (Z.div_mod i W) at 1 by lia. lia.
  - intros g Hg (k & Hk & -> & _)%elem_of_stride.
    rewrite Z.mod_add by lia. rewrite Z.mod_small; lia.
Qed.
End Stride.

Section Scan.
Variable buffer : memory.
Variables W L : Z.
Hypothesis W_pos : 1 <= W.
Hypothesis no_wrap : W + L <= 2 ^ 31.
Hypothesis readable : forall i, 0 <= i < L -> buffer i = Ok (cell_at buffer i).

(** The loop from a non-negative index: it reads the stride, in order,
    and folds the converted cells. *)
Lemma scan_spec (fuel : nat) (g : Z) (acc : float) (vis : list Z) :
  0 <= g < 2 ^ 31 -> (Z.to_nat (L - g) < fuel)%nat ->
  scan fuel buffer L W g acc vis
  = Ok (fold_elements acc (cell_at buffer <$> stride g W L), vis ++ stride g W L).
Proof.
  revert g acc vis. induction fuel as [ | fuel IH]; intros g acc vis Hg Hfuel; [lia | ].
  cbn [scan]. destruct (Z.ltb_spec g L) as [Hlt | Hge].
  - rewrite readable by lia. cbn [mbind outcome_bind].
    rewrite sint32_id by lia. rewrite IH by lia.
    rewrite (stride_cons W L W_pos g Hlt). cbn [fmap list_fmap fold_elements foldl].
    rewrite <- app_assoc. reflexivity.
  - rewrite stride_nil by lia. cbn. rewrite app_nil_r. reflexivity.
Qed.

Lemma scan_item_spec (fuel : nat) (g : Z) :
  0 <= g < 2 ^ 31 -> (Z.to_nat L < fuel)%nat ->
  scan_item fuel buffer L W g
  = Ok (fold_elements INFINITY (cell_at buffer <$> stride g W L), stride g W L).
Proof.
  intros Hg Hfuel. unfold scan_item. rewrite sint32_id by lia.
  rewrite scan_spec by lia. reflexivity.
Qed.
End Scan.

(** ** Monadic folds *)

Lemma foldM_app {A S : Type} (f : A -> S -> outcome S) (l k : list A) (s : S) :
  foldM f (l ++ k) s = s' ← foldM f l s; foldM f k s'.
Proof.
  revert s. induction l as [ | a l IH]; intros s; cbn; [reflexivity | ].
  destruct (f a s); cbn; auto.
Qed.

Lemma foldM_idle {A S : Type} (f : A -> S -> outcome S) (l : list A) (s : S) :
  (forall a, a ∈ l -> f a s = Ok s) -> foldM f l s = Ok s.
Proof.
  induction l as [ | a l IH]; intros Hl; cbn; [reflexivity | ].
  rewrite Hl by apply list_elem_of_here. cbn. apply IH.
  intros b Hb. apply Hl. now apply list_elem_of_further.
Qed.

Lemma mapM_fmap {A B : Type} (f : A -> outcome B) (g : A -> B) (l : list A) :
  (forall a, a ∈ l -> f a = Ok (g a)) -> mapM f l = Ok (g <$> l).
Proof.
  induction l as [ | a l IH]; intros Hl; cbn; [reflexivity | ].
  rewrite Hl by apply list_elem_of_here. cbn. rewrite IH; [reflexivity | ].
  intros b Hb. apply Hl. now apply list_elem_of_further.
Qed.

Lemma mapM_ext {A B : Type} (f g : A -> outcome B) (l : list A) :
  (forall a, a ∈ l -> f a = g a) -> mapM f l = mapM g l.
Proof.
  induction l as [ | a l IH]; intros Hl; cbn; [reflexivity | ].
  rewrite Hl by apply list_elem_of_here. rewrite IH; [reflexivity | ].
  intros b Hb. apply Hl. now apply list_elem_of_further.
Qed.

Lemma foldM_ext {A S : Type} (f g : A -> S -> outcome S) (l : list A) (s : S) :
  (forall a t, a ∈ l -> f a t = g a t) -> foldM f l s = foldM g l s.
Proof.
  revert s. induction l as [ | a l IH]; intros s Hl; cbn; [reflexivity | ].
  rewrite Hl by apply list_elem_of_here. destruct (g a s); cbn; try reflexivity.
  apply IH. intros b t Hb. apply Hl. now apply list_elem_of_further.
Qed.

(** ** Reads and writes of list objects *)

Lemma read_lookup (cells : list Z) (i : Z) (v : Z) :
  0 <= i -> cells !! Z.to_nat i = Some v -> read cells i = Ok v.
Proof.
  intros Hi Hv. unfold read. destruct (Z.leb_spec 0 i); [ | lia].
  now rewrite Hv.
Qed.

Lemma read_readable (cells : list Z) (i : Z) :
  0 <= i < Z.of_nat (length cells) -> read cells i = Ok (cell_at (read cells) i).
Proof.
  intros Hi. unfold cell_at, read. destruct (Z.leb_spec 0 i); [ | lia].
  destruct (lookup_lt_is_Some_2 cells (Z.to_nat i)) as [v ->]; [lia | reflexivity].
Qed.

Lemma cell_at_lookup (cells : list Z) (i : Z) (v : Z) :
  0 <= i -> cells !! Z.to_nat i = Some v -> cell_at (read cells) i = v.
Proof. intros Hi Hv. unfold cell_at. now rewrite (read_lookup _ _ _ Hi Hv). Qed.

Lemma write_insert (cells : list Z) (i : Z) (v : Z) :
  0 <= i < Z.of_nat (length cells) ->
  write cells i v = Ok (<[Z.to_nat i := v]> cells).
Proof.
  intros Hi. unfold write.
  destruct (Z.leb_spec 0 i); [ | lia].
  destruct (Z.ltb_spec i (Z.of_nat (length cells))); [ | lia].
  reflexivity.
Qed.

(** ** Minima of cells *)

Lemma cells_min_le_max (l : list Z) : cells_min l <= ULONG_MAX.
Proof. induction l as [ | x l IH]; cbn; [lia | ]. fold (cells_min l). lia. Qed.

Lemma cells_min_lower (l : list Z) (x : Z) : x ∈ l -> cells_min l <= x.
Proof.
  induction l as [ | y l IH]; intros Hx; [now apply not_elem_of_nil in Hx | ].
  cbn. fold (cells_min l). apply elem_of_cons in Hx as [-> | Hx]; [lia | ].
  specialize (IH Hx). lia.
Qed.

Lemma cells_min_attained (l : list Z) : cells_min l = ULONG_MAX \/ cells_min l ∈ l.
Proof.
  induction l as [ | y l IH]; [now left | ]. cbn. fold (cells_min l).
  destruct (Z.min_spec y (cells_min l)) as [[_ ->] | [_ ->]].
  - right. apply list_elem_of_here.
  - destruct IH as [IH | IH]; [now left | right; now apply list_elem_of_further].
Qed.

Lemma cells_min_app (l k : list Z) :
  cells_min (l ++ k) = Z.min (cells_min l) (cells_min k).
Proof.
  induction l as [ | x l IH]; cbn.
  - fold (cells_min k). pose proof (cells_min_le_max k). lia.
  - fold (cells_min (l ++ k)) (cells_min l). rewrite IH. lia.
Qed.

(** The minimum only depends on which values occur. *)
Lemma cells_min_ext (l k : list Z) :
  (forall x, x ∈ l <-> x ∈ k) -> cells_min l = cells_min k.
Proof.
  intros Hlk.
  pose proof (cells_min_le_max l). pose proof (cells_min_le_max k).
  assert (cells_min l <= cells_min k).
  { destruct (cells_min_attained k) as [-> | Hin]; [assumption | ].
    apply cells_min_lower, Hlk, Hin. }
  assert (cells_min k <= cells_min l).
  { destruct (cells_min_attained l) as [-> | Hin]; [assumption | ].
    apply cells_min_lower, Hlk, Hin. }
  lia.
Qed.

Lemma cells_min_perm (l k : list Z) : l ≡ₚ k -> cells_min l = cells_min k.
Proof. intros Hp. apply cells_min_ext. intros x. now rewrite Hp. Qed.

(** [cells_min] is the greatest of the lower bounds below [ULONG_MAX]. *)
Lemma cells_min_greatest (l : list Z) (m : Z) :
  m <= ULONG_MAX -> (forall x, x ∈ l -> m <= x) -> m <= cells_min l.
Proof.
  intros Hm Hl. destruct (cells_min_attained l) as [-> | Hin]; [assumption | ].
  now apply Hl.
Qed.

(** ** The tree reduction *)

Section Reduction.
Variable out_of_range : float -> Z.


Lemma length_round_result (o : Z) (scratch : list Z) :
  length (round_result out_of_range o scratch) = length scratch.
Proof. apply length_imap. Qed.

Lemma round_after_nil (o : Z) (scratch : list Z) :
  round_after out_of_range [] o scratch = scratch.
Proof.
  unfold round_after. apply list_eq. intros i. rewrite list_lookup_imap.
  destruct (scratch !! i); [ | reflexivity]. cbn [fmap option_fmap option_map].
  rewrite bool_decide_eq_false_2; [reflexivity | apply not_elem_of_nil].
Qed.

Lemma round_after_all (done : list Z) (o : Z) (scratch : list Z) :
  (forall i, 0 <= i < o -> i ∈ done) ->
  round_after out_of_range done o scratch = round_result out_of_range o scratch.
Proof.
  intros Hdone. unfold round_after, round_result. apply imap_ext. intros i x _.
  destruct (Z.ltb_spec (Z.of_nat i) o); [ | now rewrite andb_false_r].
  rewrite bool_decide_eq_true_2; [reflexivity | apply Hdone; lia].
Qed.

(** One work-item runs the body: its own slot is the only one to change,
    and the two cells it reads are still those the round started from. *)
Lemma fold_item_round_after (done : list Z) (k o : Z) (scratch : list Z) :
  0 <= k < 2 ^ 31 -> k ∉ done -> 0 < o -> 2 * o <= 2 ^ 31 ->
  2 * o <= Z.of_nat (length scratch) ->
  fold_item out_of_range o k (round_after out_of_range done o scratch)
  = Ok (round_after out_of_range (k :: done) o scratch).
Proof.
  intros Hk Hfresh Ho Ho31 Hlen. unfold fold_item. rewrite sint32_id by lia.
  destruct (Z.ltb_spec k o) as [Hlt | Hge].
  - rewrite sint32_id by lia.
    destruct (lookup_lt_is_Some_2 scratch (Z.to_nat k + Z.to_nat o))
      as [other Hother]; [lia | ].
    destruct (lookup_lt_is_Some_2 scratch (Z.to_nat k)) as [mine Hmine]; [lia | ].
    rewrite (read_lookup _ (k + o) other); [ | lia | ].
    2:{ replace (Z.to_nat (k + o)) with (Z.to_nat k + Z.to_nat o)%nat by lia.
        unfold round_after. rewrite list_lookup_imap, Hother.
        cbn [fmap option_fmap option_map].
        destruct (Z.ltb_spec (Z.of_nat (Z.to_nat k + Z.to_nat o)) o); [lia | ].
        now rewrite andb_false_r. }
    cbn [mbind outcome_bind].
    rewrite (read_lookup _ k mine); [ | lia | ].
    2:{ unfold round_after. rewrite list_lookup_imap, Hmine.
        cbn [fmap option_fmap option_map].
        rewrite bool_decide_eq_false_2; [reflexivity | ].
        now rewrite Z2Nat.id by lia. }
    cbn [mbind outcome_bind].
    rewrite write_insert by (unfold round_after; rewrite length_imap; lia).
    f_equal. apply list_eq. intros i. unfold round_after.
    destruct (decide (i = Z.to_nat k)) as [-> | Hne].
    + rewrite list_lookup_insert_eq by (rewrite length_imap; lia).
      rewrite list_lookup_imap, Hmine. cbn [fmap option_fmap option_map].
      rewrite bool_decide_eq_true_2
        by (rewrite Z2Nat.id by lia; apply list_elem_of_here).
      destruct (Z.ltb_spec (Z.of_nat (Z.to_nat k)) o); [ | lia]. cbn [andb].
      now rewrite (list_lookup_total_correct _ _ _ Hother).
    + rewrite list_lookup_insert_ne by congruence.
      rewrite !list_lookup_imap. destruct (scratch !! i); [ | reflexivity].
      cbn [fmap option_fmap option_map].
      rewrite (bool_decide_ext (Z.of_nat i ∈ k :: done) (Z.of_nat i ∈ done));
        [reflexivity | ].
      rewrite elem_of_cons. split; [ | tauto].
      intros [Heq | Hin]; [lia | exact Hin].
  - f_equal. unfold round_after. apply imap_ext. intros i x _.
    destruct (Z.ltb_spec (Z.of_nat i) o); [ | now rewrite !andb_false_r].
    rewrite (bool_decide_ext (Z.of_nat i ∈ k :: done) (Z.of_nat i ∈ done));
      [reflexivity | ].
    rewrite elem_of_cons. split; [ | tauto].
    intros [Heq | Hin]; [lia | exact Hin].
Qed.

Lemma round_schedule (order done : list Z) (o : Z) (scratch : list Z) :
  NoDup order -> (forall k, k ∈ order -> 0 <= k < 2 ^ 31 /\ k ∉ done) ->
  0 < o -> 2 * o <= 2 ^ 31 -> 2 * o <= Z.of_nat (length scratch) ->
  foldM (fold_item out_of_range o) order (round_after out_of_range done o scratch)
  = Ok (round_after out_of_range (reverse order ++ done) o scratch).
Proof.
  intros Hnd Hin Ho Ho31 Hlen. revert done Hin.
  induction order as [ | k order IH]; intros done Hin; [reflexivity | ].
  apply NoDup_cons in Hnd as [Hk Hnd]. cbn [foldM].
  destruct (Hin k (list_elem_of_here _ _)) as [Hrange Hfresh].
  rewrite fold_item_round_after by assumption. cbn [mbind outcome_bind].
  rewrite IH; [ | assumption | ].
  - now rewrite reverse_cons, <- app_assoc.
  - intros j Hj. destruct (Hin j (list_elem_of_further _ _ _ Hj)) as [Hjr Hjf].
    split; [assumption | ]. rewrite elem_of_cons. intros [-> | ?]; tauto.
Qed.

(** A round on a group of [N] work-items whose [scratch] has room for both
    halves: whatever the order in which the work-items run the body, the
    barrier is reached with the same [scratch]. *)
Lemma round_any_order (N o : Z) (order scratch : list Z) :
  order ≡ₚ seqZ 0 N ->
  0 < o -> 2 * o <= N -> N <= 2 ^ 31 -> N <= Z.of_nat (length scratch) ->
  foldM (fold_item out_of_range o) order scratch
  = Ok (round_result out_of_range o scratch).
Proof.
  intros Hperm Ho HN H31 Hlen.
  rewrite <- (round_after_nil o scratch) at 1.
  rewrite round_schedule; try lia.
  - f_equal. apply round_after_all. intros i Hi.
    rewrite app_nil_r, elem_of_reverse, Hperm, elem_of_seqZ. lia.
  - rewrite Hperm. apply NoDup_seqZ.
  - intros k Hk. rewrite Hperm, elem_of_seqZ in Hk.
    split; [lia | apply not_elem_of_nil].
Qed.

Lemma round_spec (N o : Z) (scratch : list Z) :
  0 < o -> 2 * o <= N -> N <= 2 ^ 31 -> N <= Z.of_nat (length scratch) ->
  round out_of_range N o scratch = Ok (round_result out_of_range o scratch).
Proof. intros. now apply round_any_order with (N := N). Qed.

Lemma length_tree (offs : list Z) (scratch : list Z) :
  length (tree out_of_range offs scratch) = length scratch.
Proof.
  revert scratch. induction offs as [ | o offs IH]; intros scratch; [reflexivity | ].
  cbn [tree foldl]. fold (tree out_of_range offs (round_result out_of_range o scratch)).
  now rewrite IH, length_round_result.
Qed.

Lemma reduce_loop_spec (fuel : nat) (N o : Z) (scratch log : list Z) :
  0 <= o -> 2 * o <= N -> N <= 2 ^ 31 -> N <= Z.of_nat (length scratch) ->
  2 * o < 2 ^ (Z.of_nat fuel - 1) ->
  reduce_loop out_of_range fuel N o scratch log
  = Ok (tree out_of_range (chain fuel o) scratch, log ++ chain fuel o).
Proof.
  revert o scratch log.
  induction fuel as [ | fuel IH]; intros o scratch log Ho HN H31 Hlen Hfuel.
  - cbn in Hfuel. lia.
  - cbn [reduce_loop chain]. destruct (Z.ltb_spec 0 o) as [Hpos | Hzero].
    + rewrite round_spec by lia. cbn [mbind outcome_bind].
      rewrite Z.quot_div_nonneg by lia.
      assert (0 <= o / 2) by (apply Z.div_pos; lia).
      assert (2 * (o / 2) <= o) by (apply Z.mul_div_le; lia).
      rewrite IH; try (rewrite ?length_round_result; lia).
      * cbn [tree foldl]. now rewrite <- app_assoc.
      * replace (Z.of_nat (S fuel) - 1) with (Z.succ (Z.of_nat fuel - 1)) in Hfuel
          by lia.
        destruct fuel as [ | fuel]; [cbn in Hfuel; lia | ].
        rewrite Z.pow_succ_r in Hfuel by lia. lia.
    + cbn. now rewrite app_nil_r.
Qed.

Lemma log2_half (o : Z) : 2 <= o -> Z.log2 (o / 2) = Z.log2 o - 1.
Proof.
  intros Ho. pose proof (Z.log2_spec o ltac:(lia)) as [Hlo Hhi].
  assert (1 <= Z.log2 o) by (apply Z.log2_le_pow2; cbn; lia).
  apply Z.log2_unique; [lia | ].
  replace (Z.succ (Z.log2 o - 1)) with (Z.log2 o) by lia.
  assert (Hl : 2 ^ Z.log2 o = 2 * 2 ^ (Z.log2 o - 1)).
  { rewrite <- Z.pow_succ_r by lia. f_equal. lia. }
  rewrite Z.pow_succ_r in Hhi by lia.
  split.
  - apply Z.div_le_lower_bound; lia.
  - apply Z.div_lt_upper_bound; lia.
Qed.

Lemma bits_half (o : Z) : 0 < o -> bits o = bits (o / 2) + 1.
Proof.
  intros Ho. unfold bits. destruct (Z.eqb_spec o 0); [lia | ].
  destruct (Z.eqb_spec (o / 2) 0) as [Hz | Hnz].
  - assert (o = 1); [ | subst; reflexivity].
    destruct (Z_lt_le_dec o 2); [lia | ].
    assert (1 <= o / 2) by (apply Z.div_le_lower_bound; lia). lia.
  - assert (2 <= o).
    { destruct (Z_lt_le_dec o 2); [ | lia]. rewrite Z.div_small in Hnz; lia. }
    rewrite log2_half; lia.
Qed.

Lemma bits_half_log2 (N : Z) : 1 <= N -> bits (N / 2) = Z.log2 N.
Proof.
  intros HN. unfold bits. destruct (Z.eqb_spec (N / 2) 0) as [Hz | Hnz].
  - assert (N = 1); [ | subst; reflexivity].
    destruct (Z_lt_le_dec N 2); [lia | ].
    assert (1 <= N / 2) by (apply Z.div_le_lower_bound; lia). lia.
  - assert (2 <= N).
    { destruct (Z_lt_le_dec N 2); [ | lia]. rewrite Z.div_small in Hnz; lia. }
    rewrite log2_half; lia.
Qed.

Lemma bits_nonneg (o : Z) : 0 <= bits o.
Proof. unfold bits. destruct (o =? 0); [lia | ]. pose proof (Z.log2_nonneg o). lia. Qed.

(** The offsets of the rounds in closed form: [o], [o/2], [o/4], ... down
    to 1. *)
Lemma chain_closed (fuel : nat) (o : Z) :
  0 <= o -> 2 * o < 2 ^ (Z.of_nat fuel - 1) ->
  chain fuel o = (fun k => o / 2 ^ k) <$> seqZ 0 (bits o).
Proof.
  revert o. induction fuel as [ | fuel IH]; intros o Ho Hfuel.
  - cbn in Hfuel. lia.
  - cbn [chain]. destruct (Z.ltb_spec 0 o) as [Hpos | Hzero].
    + rewrite Z.quot_div_nonneg by lia.
      assert (0 <= o / 2) by (apply Z.div_pos; lia).
      assert (2 * (o / 2) <= o) by (apply Z.mul_div_le; lia).
      rewrite IH.
      * rewrite (bits_half o) by lia. pose proof (bits_nonneg (o / 2)).
        rewrite (seqZ_cons 0 (bits (o / 2) + 1)) by lia. rewrite fmap_cons.
        rewrite Z.pow_0_r, Z.div_1_r. f_equal.
        replace (Z.pred (bits (o / 2) + 1)) with (bits (o / 2)) by lia.
        change (Z.succ 0) with (1 + 0). rewrite <- fmap_add_seqZ, <- list_fmap_compose.
        apply list_fmap_ext. intros i k Hk.
        apply list_elem_of_lookup_2, elem_of_seqZ in Hk.
        cbn. rewrite Z.div_div by (try apply Z.pow_pos_nonneg; lia).
        f_equal. rewrite Z.pow_add_r by lia. lia.
      * lia.
      * replace (Z.of_nat (S fuel) - 1) with (Z.succ (Z.of_nat fuel - 1)) in Hfuel
          by lia.
        destruct fuel as [ | fuel]; [cbn in Hfuel; lia | ].
        rewrite Z.pow_succ_r in Hfuel by lia. lia.
    + assert (o = 0) as -> by lia. reflexivity.
Qed.

(** *** What the rounds compute *)

Lemma float_to_ulong_small (a : Z) :
  0 <= a < 2 ^ 24 -> float_to_ulong out_of_range (ulong_to_float a) = a.
Proof.
  intros Ha. destruct a as [ | p | p]; [reflexivity | | lia].
  rewrite ulong_to_float_small by lia. cbn [float_to_ulong].
  rewrite truncate_small by lia.
  destruct (Z.ltb_spec (Z.pos p) (2 ^ 64)); [reflexivity | lia].
Qed.

Lemma float_to_ulong_two_64 :
  float_to_ulong out_of_range two_64 = out_of_range two_64 mod 2 ^ 64.
Proof. reflexivity. Qed.

Lemma good_le_max (a : Z) : good out_of_range a -> a <= ULONG_MAX.
Proof. unfold good, ULONG_MAX. lia. Qed.

Lemma good_min (a b : Z) :
  good out_of_range a -> good out_of_range b -> good out_of_range (Z.min a b).
Proof.
  intros Ha Hb. destruct (Z.min_spec a b) as [[_ ->] | [_ ->]]; assumption.
Qed.

Lemma fold_cells_good (a b : Z) :
  good out_of_range a -> good out_of_range b ->
  fold_cells out_of_range a b = Z.min a b.
Proof.
  unfold fold_cells.
  intros [Ha | [-> [Hinf Htop]]] [Hb | [-> _]].
  - rewrite float_lt_small by assumption.
    destruct (Z.ltb_spec a b); rewrite float_to_ulong_small; lia.
  - rewrite ulong_to_float_ULONG_MAX, float_lt_small_two_64 by assumption.
    rewrite float_to_ulong_small by assumption. unfold ULONG_MAX. lia.
  - rewrite ulong_to_float_ULONG_MAX, float_lt_two_64_small by assumption.
    rewrite float_to_ulong_small by assumption. unfold ULONG_MAX. lia.
  - rewrite ulong_to_float_ULONG_MAX. cbn [float_lt SFltb SFcompare].
    change (float_lt two_64 two_64) with false. cbn iota.
    rewrite float_to_ulong_two_64, Htop. lia.
Qed.

Lemma chain_descending (fuel : nat) (o b : Z) :
  2 * o <= b -> descending b (chain fuel o).
Proof.
  revert o b. induction fuel as [ | fuel IH]; intros o b Hb; [exact I | ].
  cbn [chain]. destruct (Z.ltb_spec 0 o); [ | exact I].
  cbn [descending]. split; [assumption | split; [assumption | ] ].
  apply IH. rewrite Z.quot_div_nonneg by lia. apply Z.mul_div_le; lia.
Qed.

Lemma folded_bound (offs : list Z) (b : Z) (j : nat) :
  1 <= b -> descending b offs -> j ∈ folded offs -> Z.of_nat j < b.
Proof.
  revert b j. induction offs as [ | o offs IH]; intros b j Hb Hd Hj.
  - apply list_elem_of_singleton in Hj as ->. lia.
  - destruct Hd as (Ho & Hob & Hd). cbn [folded foldr] in Hj. fold (folded offs) in Hj.
    apply elem_of_app in Hj as [Hj | Hj].
    + specialize (IH o j ltac:(lia) Hd Hj). lia.
    + apply list_elem_of_fmap in Hj as (i & -> & Hi).
      specialize (IH o i ltac:(lia) Hd Hi). lia.
Qed.

Lemma lookup_total_round_result (o : Z) (scratch : list Z) (j : nat) :
  (j < length scratch)%nat ->
  round_result out_of_range o scratch !!! j
  = if Z.of_nat j <? o
    then fold_cells out_of_range (scratch !!! j) (scratch !!! (j + Z.to_nat o)%nat)
    else scratch !!! j.
Proof.
  intros Hj. destruct (lookup_lt_is_Some_2 scratch j Hj) as [x Hx].
  rewrite (list_lookup_total_correct _ _ _ Hx).
  apply list_lookup_total_correct. unfold round_result.
  now rewrite list_lookup_imap, Hx.
Qed.

Lemma cells_min_pairs (f g h : nat -> Z) (js : list nat) :
  (forall j, j ∈ js -> f j = Z.min (g j) (h j)) ->
  cells_min (f <$> js) = Z.min (cells_min (g <$> js)) (cells_min (h <$> js)).
Proof.
  induction js as [ | j js IH]; intros Hf; [cbn; lia | ].
  rewrite !fmap_cons. cbn [cells_min foldr].
  fold (cells_min (f <$> js)) (cells_min (g <$> js)) (cells_min (h <$> js)).
  rewrite Hf by apply list_elem_of_here.
  rewrite IH; [lia | ]. intros i Hi. apply Hf. now apply list_elem_of_further.
Qed.

(** Slot 0 after the rounds holds the minimum of the slots folded into
    it, as soon as these hold cells on which the conversions are exact. *)
Lemma tree_min (offs : list Z) (b : Z) (scratch : list Z) :
  1 <= b -> descending b offs ->
  (forall j, j ∈ folded offs ->
     (j < length scratch)%nat /\ good out_of_range (scratch !!! j)) ->
  tree out_of_range offs scratch !!! 0%nat
  = cells_min ((fun j => scratch !!! j) <$> folded offs).
Proof.
  revert b scratch. induction offs as [ | o offs IH]; intros b scratch Hb Hd Hgood.
  - cbn. destruct (Hgood 0%nat (list_elem_of_here _ _)) as [_ Hg%good_le_max]. lia.
  - destruct Hd as (Ho & Hob & Hd). cbn [tree foldl].
    fold (tree out_of_range offs (round_result out_of_range o scratch)).
    cbn [folded foldr] in *. fold (folded offs) in *.
    assert (Hstep : forall j, j ∈ folded offs ->
              round_result out_of_range o scratch !!! j
              = Z.min (scratch !!! j) (scratch !!! (j + Z.to_nat o)%nat)).
    { intros j Hj.
      pose proof (folded_bound offs o j ltac:(lia) Hd Hj) as Hjo.
      destruct (Hgood j) as [Hlen Hgj]; [apply elem_of_app; now left | ].
      destruct (Hgood (j + Z.to_nat o)%nat) as [_ Hgo].
      { apply elem_of_app. right. apply list_elem_of_fmap. now exists j. }
      rewrite lookup_total_round_result by assumption.
      destruct (Z.ltb_spec (Z.of_nat j) o); [ | lia].
      now apply fold_cells_good. }
    rewrite (IH o); [ | lia | assumption | ].
    + rewrite fmap_app, cells_min_app, <- list_fmap_compose.
      now apply cells_min_pairs.
    + intros j Hj. rewrite length_round_result, Hstep by assumption.
      destruct (Hgood j) as [Hlen Hgj]; [apply elem_of_app; now left | ].
      destruct (Hgood (j + Z.to_nat o)%nat) as [_ Hgo].
      { apply elem_of_app. right. apply list_elem_of_fmap. now exists j. }
      split; [assumption | now apply good_min].
Qed.

(** For a power of two every slot below it is folded into slot 0. *)
Lemma folded_power_of_two (k : nat) (fuel : nat) (i : nat) :
  (k < fuel)%nat -> Z.of_nat i < 2 ^ Z.of_nat k ->
  i ∈ folded (chain fuel (2 ^ Z.of_nat k / 2)).
Proof.
  revert fuel i. induction k as [ | k IH]; intros fuel i Hfuel Hi.
  - cbn in Hi. assert (i = 0%nat) as -> by lia.
    destruct fuel; cbn; apply list_elem_of_here.
  - destruct fuel as [ | fuel]; [lia | ].
    rewrite Nat2Z.inj_succ, Z.pow_succ_r by lia.
    replace (2 * 2 ^ Z.of_nat k / 2) with (2 ^ Z.of_nat k)
      by (rewrite Z.mul_comm, Z.div_mul; lia).
    assert (0 < 2 ^ Z.of_nat k) by (apply Z.pow_pos_nonneg; lia).
    cbn [chain]. destruct (Z.ltb_spec 0 (2 ^ Z.of_nat k)); [ | lia].
    rewrite Z.quot_div_nonneg by lia. cbn [folded foldr].
    fold (folded (chain fuel (2 ^ Z.of_nat k / 2))).
    rewrite Nat2Z.inj_succ, Z.pow_succ_r in Hi by lia.
    apply elem_of_app. destruct (Z_lt_le_dec (Z.of_nat i) (2 ^ Z.of_nat k)).
    + left. apply IH; lia.
    + right. apply list_elem_of_fmap. exists (i - Z.to_nat (2 ^ Z.of_nat k))%nat.
      split; [lia | ]. apply IH; lia.
Qed.

(** *** The accumulators and their stored values *)

Lemma foldl_min_cells_min (a : Z) (l : list Z) :
  a <= ULONG_MAX -> foldl Z.min a l = Z.min a (cells_min l).
Proof.
  revert a. induction l as [ | x l IH]; intros a Ha; cbn [foldl cells_min foldr].
  - lia.
  - fold (cells_min l). rewrite IH by lia. lia.
Qed.

Lemma fold_elements_from_small (a : Z) (cells : list Z) :
  0 <= a < 2 ^ 24 -> Forall (fun c => 0 <= c < 2 ^ 24) cells ->
  fold_elements (ulong_to_float a) cells = ulong_to_float (foldl Z.min a cells).
Proof.
  intros Ha Hcells. revert a Ha.
  induction Hcells as [ | c cells Hc _ IH]; intros a Ha; [reflexivity | ].
  cbn [fold_elements foldl]. rewrite select_min_small by assumption.
  apply IH. lia.
Qed.

(** The accumulator of a work-item that visited small cells: the seed if it
    visited none, the image of their minimum otherwise. *)
Lemma fold_elements_small (cells : list Z) :
  Forall (fun c => 0 <= c < 2 ^ 24) cells ->
  fold_elements INFINITY cells
  = match cells with
    | [] => INFINITY
    | _ => ulong_to_float (cells_min cells)
    end.
Proof.
  intros Hcells. destruct Hcells as [ | c cells Hc Hcells]; [reflexivity | ].
  cbn [fold_elements foldl]. rewrite select_min_INFINITY.
  change (foldl _ (ulong_to_float c) cells)
    with (fold_elements (ulong_to_float c) cells).
  rewrite fold_elements_from_small by assumption.
  rewrite foldl_min_cells_min by (unfold ULONG_MAX; lia). reflexivity.
Qed.

Lemma cells_min_small (cells : list Z) :
  Forall (fun c => 0 <= c < 2 ^ 24) cells -> cells <> [] ->
  0 <= cells_min cells < 2 ^ 24.
Proof.
  intros Hcells Hne. destruct (cells_min_attained cells) as [Hmax | Hin].
  - destruct cells as [ | c cells]; [congruence | ].
    apply Forall_cons in Hcells as [Hc _].
    pose proof (cells_min_lower (c :: cells) c (list_elem_of_here _ _)).
    unfold ULONG_MAX in Hmax. lia.
  - rewrite Forall_forall in Hcells. now apply Hcells.
Qed.

Lemma stored_value_small (cells : list Z) :
  Forall (fun c => 0 <= c < 2 ^ 24) cells -> cells <> [] \/ saturates out_of_range ->
  float_to_ulong out_of_range (fold_elements INFINITY cells) = cells_min cells /\
  good out_of_range (cells_min cells).
Proof.
  intros Hcells Hcase. rewrite fold_elements_small by assumption.
  destruct cells as [ | c cells].
  - destruct Hcase as [ | Hsat]; [congruence | ]. split.
    + apply Hsat.
    + right. now split.
  - pose proof (cells_min_small (c :: cells) Hcells ltac:(congruence)).
    split; [now apply float_to_ulong_small | now left].
Qed.

(** *** The stores before the first barrier *)

Lemma store_all_spec (accs : list float) (n : nat) (scratch : list Z) :
  Z.of_nat (n + length accs) <= 2 ^ 31 ->
  (n + length accs <= length scratch)%nat ->
  store_all out_of_range (Z.of_nat n) accs scratch
  = Ok (take n scratch ++ (float_to_ulong out_of_range <$> accs)
          ++ drop (n + length accs) scratch).
Proof.
  revert n scratch. induction accs as [ | a accs IH]; intros n scratch H31 Hlen.
  - cbn. rewrite Nat.add_0_r, take_drop. reflexivity.
  - cbn [store_all length] in *. unfold store_item.
    rewrite sint32_id by lia. rewrite write_insert by lia.
    cbn [mbind outcome_bind]. rewrite Nat2Z.id.
    replace (Z.of_nat n + 1) with (Z.of_nat (S n)) by lia.
    rewrite IH by (rewrite ?length_insert; lia). f_equal.
    rewrite insert_take_drop by lia.
    rewrite take_app_ge by (rewrite length_take; lia).
    rewrite length_take_le by lia.
    replace (S n - n)%nat with 1%nat by lia. cbn [take].
    rewrite drop_app_ge by (rewrite length_take; lia).
    rewrite length_take_le by lia.
    replace (S n + length accs - n)%nat with (S (length accs)) by lia.
    cbn [drop]. rewrite drop_drop.
    replace (S n + length accs)%nat with (n + S (length accs))%nat by lia.
    rewrite <- !app_assoc. reflexivity.
Qed.

End Reduction.

(** ** The reduction of one group, from the stored cells *)

Section ReduceValue.
Variable out_of_range : float -> Z.
Variable fuel : nat.
Variable N : Z.
Hypothesis N_range : 1 <= N <= 2 ^ 31.
Hypothesis loop_fuel : (33 <= fuel)%nat.

Lemma fuel_for_group : 2 * (N / 2) < 2 ^ (Z.of_nat fuel - 1).
Proof.
  assert (2 * (N / 2) <= N) by (apply Z.mul_div_le; lia).
  assert (2 ^ 32 <= 2 ^ (Z.of_nat fuel - 1)) by (apply Z.pow_le_mono_r; lia).
  lia.
Qed.

Lemma reduce_spec (scratch : list Z) :
  N <= Z.of_nat (length scratch) ->
  reduce out_of_range fuel N scratch
  = Ok (tree out_of_range (chain fuel (N / 2)) scratch, chain fuel (N / 2)).
Proof.
  intros Hlen. unfold reduce.
  assert (0 <= N / 2) by (apply Z.div_pos; lia).
  assert (2 * (N / 2) <= N) by (apply Z.mul_div_le; lia).
  rewrite sint32_id by lia.
  rewrite reduce_loop_spec; [reflexivity | lia .. | apply fuel_for_group].
Qed.

Lemma folded_below_group (j : nat) :
  j ∈ folded (chain fuel (N / 2)) -> Z.of_nat j < N.
Proof.
  apply folded_bound; [lia | ]. apply chain_descending. apply Z.mul_div_le; lia.
Qed.

(** Slot 0 after the loop: the minimum over the slots folded into it. *)
Lemma reduce_min (scratch : list Z) :
  N <= Z.of_nat (length scratch) ->
  (forall j, j ∈ folded (chain fuel (N / 2)) -> good out_of_range (scratch !!! j)) ->
  tree out_of_range (chain fuel (N / 2)) scratch !!! 0%nat
  = cells_min ((fun j => scratch !!! j) <$> folded (chain fuel (N / 2))).
Proof.
  intros Hlen Hgood. apply tree_min with (b := N); [lia | | ].
  - apply chain_descending. apply Z.mul_div_le; lia.
  - intros j Hj. split; [ | now apply Hgood].
    pose proof (folded_below_group j Hj). lia.
Qed.

(** For a power of two: the minimum over the first [N] cells. *)
Lemma reduce_min_power_of_two (k : Z) (scratch : list Z) :
  0 <= k -> N = 2 ^ k -> N <= Z.of_nat (length scratch) ->
  (forall x, x ∈ take (Z.to_nat N) scratch -> good out_of_range x) ->
  tree out_of_range (chain fuel (N / 2)) scratch !!! 0%nat
  = cells_min (take (Z.to_nat N) scratch).
Proof.
  intros Hk HN Hlen Hgood.
  assert (Hin : forall j : nat, Z.of_nat j < N ->
            scratch !!! j ∈ take (Z.to_nat N) scratch).
  { intros j Hj. apply list_elem_of_lookup. exists j.
    rewrite lookup_take_lt by lia. apply list_lookup_lookup_total_lt. lia. }
  rewrite reduce_min; [ | assumption | ].
  - apply cells_min_ext. intros x. rewrite list_elem_of_fmap. split.
    + intros (j & -> & Hj). apply Hin. now apply folded_below_group.
    + intros (j & Hj)%list_elem_of_lookup.
      pose proof (lookup_lt_Some _ _ _ Hj) as Hjlen. rewrite length_take in Hjlen.
      rewrite lookup_take_lt in Hj by lia.
      exists j. split; [now rewrite (list_lookup_total_correct _ _ _ Hj) | ].
      assert (k <= 31).
      { destruct (Z_lt_le_dec 31 k); [ | lia].
        assert (2 ^ 32 <= 2 ^ k) by (apply Z.pow_le_mono_r; lia). lia. }
      rewrite HN, <- (Z2Nat.id k) by lia.
      apply folded_power_of_two; [lia | ]. rewrite Z2Nat.id by lia. lia.
  - intros j Hj. apply Hgood, Hin. now apply folded_below_group.
Qed.

End ReduceValue.

(** 33 units of fuel are enough for the loop on an [int] offset. *)
Lemma loop_fuel_enough (fuel : nat) (o : Z) :
  (33 <= fuel)%nat -> 2 * o <= 2 ^ 31 -> 2 * o < 2 ^ (Z.of_nat fuel - 1).
Proof.
  intros Hfuel Ho.
  assert (2 ^ 32 <= 2 ^ (Z.of_nat fuel - 1)) by (apply Z.pow_le_mono_r; lia).
  lia.
Qed.

(** ** A launch without wrap-around *)

Section Launch.
Variable out_of_range : float -> Z.
Variable fuel : nat.
Variables buffer mask scratch : list Z.
Variables L G N : Z.
Hypothesis N_pos : 1 <= N.
Hypothesis G_nonneg : 0 <= G.
Hypothesis ids_fit : G * N <= 2 ^ 31.
Hypothesis no_wrap : G * N + L <= 2 ^ 31.
Hypothesis buffer_size : L <= Z.of_nat (length buffer).
Hypothesis scratch_size : N <= Z.of_nat (length scratch).
Hypothesis scan_fuel : (Z.to_nat L < fuel)%nat.
Hypothesis loop_fuel : (33 <= fuel)%nat.

Abbreviation cells_of := (item_cells buffer L G N).
Abbreviation accs_at := (accs_of buffer L G N).
Abbreviation stored_at := (stored_of out_of_range buffer scratch L G N).
Abbreviation rounds_at := (rounds_of fuel N).
Abbreviation reduced_at := (reduced_of out_of_range fuel buffer scratch L G N).
Abbreviation value_at := (value_of out_of_range fuel buffer scratch L G N).

Lemma length_accs_of (grp : Z) : length (accs_at grp) = Z.to_nat N.
Proof. unfold accs_of. now rewrite length_fmap, length_seqZ. Qed.

Lemma length_stored_of (grp : Z) : length (stored_at grp) = length scratch.
Proof.
  unfold stored_of. rewrite length_app, length_fmap, length_accs_of, length_drop. lia.
Qed.

Lemma length_reduced_of (grp : Z) : length (reduced_at grp) = length scratch.
Proof. unfold reduced_of. now rewrite length_tree, length_stored_of. Qed.

Lemma global_id_range (grp li : Z) :
  0 <= grp < G -> 0 <= li < N -> 0 <= grp * N + li < G * N.
Proof. intros Hg Hl. nia. Qed.

Lemma run_group_spec (grp : Z) (output : list Z) :
  0 <= grp < G -> grp < Z.of_nat (length output) ->
  run_group out_of_range fuel buffer L G N grp scratch output
  = Ok (GroupRun (accs_at grp) (stored_at grp) (reduced_at grp) (rounds_at)
          (<[Z.to_nat grp := reduced_at grp !!! 0%nat]> output)).
Proof.
  intros Hgrp Hout. unfold run_group.
  assert (HN31 : N <= 2 ^ 31) by nia.
  rewrite (mapM_fmap _ (fun li =>
             (fold_elements INFINITY (cells_of (grp * N + li)),
              stride (grp * N + li) (G * N) L))).
  2:{ intros li Hli%elem_of_seqZ.
      pose proof (global_id_range grp li Hgrp ltac:(lia)).
      apply scan_item_spec; try lia.
      intros i Hi. apply read_readable. lia. }
  cbn [mbind outcome_bind]. rewrite <- list_fmap_compose.
  change (fst ∘ _) with (fun li => fold_elements INFINITY (cells_of (grp * N + li))).
  fold (accs_at grp).
  pose proof (store_all_spec out_of_range (accs_at grp) 0 scratch) as Hstore.
  change (Z.of_nat 0) with 0 in Hstore. rewrite Hstore by (rewrite length_accs_of; lia).
  cbn [mbind outcome_bind]. rewrite length_accs_of, Nat.add_0_l.
  change (take 0 scratch) with (@nil Z). cbn [app].
  fold (stored_at grp). unfold reduce.
  assert (0 <= N / 2) by (apply Z.div_pos; lia).
  assert (2 * (N / 2) <= N) by (apply Z.mul_div_le; lia).
  rewrite sint32_id by lia.
  rewrite reduce_loop_spec;
    try (rewrite ?length_stored_of;
         first [lia | apply loop_fuel_enough; [exact loop_fuel | lia] ]).
  cbn [mbind outcome_bind app]. fold (rounds_at). fold (reduced_at grp).
  rewrite (seqZ_cons 0 N) by lia. cbn [foldM]. unfold publish_item.
  rewrite (sint32_id 0) by lia. cbn [Z.eqb].
  destruct (lookup_lt_is_Some_2 (reduced_at grp) 0) as [v Hv];
    [rewrite length_reduced_of; lia | ].
  rewrite (read_lookup _ 0 v) by (try exact Hv; lia).
  cbn [mbind outcome_bind]. rewrite write_insert by lia.
  cbn [mbind outcome_bind]. rewrite foldM_idle.
  - cbn [mbind outcome_bind]. now rewrite (list_lookup_total_correct _ _ _ Hv).
  - intros li Hli%elem_of_seqZ. unfold publish_item. rewrite sint32_id by lia.
    destruct (Z.eqb_spec li 0); [lia | reflexivity].
Qed.

Lemma pir_prefix (k : nat) (output : list Z) :
  Z.of_nat k <= G -> G <= Z.of_nat (length output) ->
  foldM (pir_group out_of_range fuel buffer mask L G N scratch)
        (seqZ 0 (Z.of_nat k)) (output, [])
  = Ok ((value_at <$> seqZ 0 (Z.of_nat k)) ++ drop k output,
        reduced_at <$> seqZ 0 (Z.of_nat k)).
Proof.
  intros Hk Hout. induction k as [ | k IH]; [reflexivity | ].
  rewrite seqZ_S, foldM_app, IH by lia. cbn [mbind outcome_bind foldM].
  unfold pir_group at 1. cbn [fst snd]. rewrite Z.add_0_l.
  rewrite run_group_spec
    by (rewrite ?length_app, ?length_fmap, ?length_seqZ, ?length_drop; lia).
  cbn [mbind outcome_bind published reduced]. rewrite !fmap_app. cbn [fmap list_fmap].
  do 2 f_equal. rewrite Nat2Z.id.
  rewrite insert_app_r_alt by (rewrite length_fmap, length_seqZ; lia).
  rewrite length_fmap, length_seqZ, Nat2Z.id, Nat.sub_diag.
  destruct (lookup_lt_is_Some_2 output k) as [y Hy]; [lia | ].
  rewrite (drop_S _ _ _ Hy). cbn. now rewrite <- app_assoc.
Qed.

Lemma pir_spec (output : list Z) :
  G <= Z.of_nat (length output) ->
  pir out_of_range fuel buffer mask scratch L output G N
  = Ok ((value_at <$> seqZ 0 G) ++ drop (Z.to_nat G) output,
        reduced_at <$> seqZ 0 G).
Proof.
  intros Hout. unfold pir.
  pose proof (pir_prefix (Z.to_nat G) output) as Hp.
  rewrite Z2Nat.id in Hp by lia. apply Hp; lia.
Qed.

(** *** The values, for small cells *)

Hypothesis cells_small : Forall (fun c => 0 <= c < 2 ^ 24) buffer.
Hypothesis busy_or_saturating : G * N <= L \/ saturates out_of_range.

Lemma item_cells_sub (g x : Z) :
  1 <= G * N -> 0 <= g -> x ∈ cells_of g -> x ∈ buffer.
Proof.
  intros HW Hg (i & -> & Hi)%list_elem_of_fmap.
  apply elem_of_stride in Hi as (k & Hk & -> & Hlt); [ | assumption].
  destruct (lookup_lt_is_Some_2 buffer (Z.to_nat (g + k * (G * N)))) as [v Hv];
    [nia | ].
  rewrite (cell_at_lookup _ _ v) by (try exact Hv; nia).
  now apply list_elem_of_lookup_2 in Hv.
Qed.

Lemma item_cells_has (i x : Z) :
  1 <= G * N -> 0 <= i < L -> buffer !! Z.to_nat i = Some x ->
  x ∈ cells_of (i mod (G * N)).
Proof.
  intros HW Hi Hx. apply list_elem_of_fmap. exists i.
  split; [now rewrite (cell_at_lookup _ _ x) by (try exact Hx; lia) | ].
  now apply stride_partition.
Qed.

Lemma item_cells_nonempty (g : Z) :
  1 <= G * N -> g < L -> cells_of g <> [].
Proof.
  intros HW Hg. unfold item_cells. now rewrite stride_cons by assumption.
Qed.

Lemma item_cells_small (g : Z) :
  1 <= G * N -> 0 <= g -> Forall (fun c => 0 <= c < 2 ^ 24) (cells_of g).
Proof.
  intros HW Hg. apply Forall_forall. intros x Hx%item_cells_sub; try assumption.
  rewrite Forall_forall in cells_small. now apply cells_small.
Qed.

Lemma item_stored (grp li : Z) :
  0 <= grp < G -> 0 <= li < N ->
  float_to_ulong out_of_range (fold_elements INFINITY (cells_of (grp * N + li)))
  = cells_min (cells_of (grp * N + li)) /\
  good out_of_range (cells_min (cells_of (grp * N + li))).
Proof.
  intros Hgrp Hli. pose proof (global_id_range grp li Hgrp Hli).
  apply stored_value_small.
  - apply item_cells_small; lia.
  - destruct busy_or_saturating as [Hbusy | Hsat]; [left | now right].
    apply item_cells_nonempty; lia.
Qed.

(** [scratch] at the first barrier: slot [li] holds the minimum of the
    cells its work-item visited. *)
Lemma take_stored_of (grp : Z) :
  0 <= grp < G ->
  take (Z.to_nat N) (stored_at grp)
  = (fun li => cells_min (cells_of (grp * N + li))) <$> seqZ 0 N.
Proof.
  intros Hgrp. unfold stored_of.
  rewrite take_app_length' by (now rewrite length_fmap, length_accs_of).
  unfold accs_of. rewrite <- list_fmap_compose. apply list_fmap_ext.
  intros i li Hli. apply list_elem_of_lookup_2, elem_of_seqZ in Hli.
  cbn. apply item_stored; lia.
Qed.

Lemma take_stored_of_good (grp x : Z) :
  0 <= grp < G -> x ∈ take (Z.to_nat N) (stored_at grp) -> good out_of_range x.
Proof.
  intros Hgrp Hx. rewrite take_stored_of in Hx by assumption.
  apply list_elem_of_fmap in Hx as (li & -> & Hli%elem_of_seqZ).
  apply item_stored; lia.
Qed.

(** What a group of a power-of-two size publishes. *)
Lemma value_of_power_of_two (k grp : Z) :
  0 <= k -> N = 2 ^ k -> 0 <= grp < G ->
  value_at grp = cells_min (take (Z.to_nat N) (stored_at grp)).
Proof.
  intros Hk HN Hgrp. unfold value_of, reduced_of, rounds_of.
  assert (N <= 2 ^ 31) by nia.
  apply reduce_min_power_of_two with (k := k); try assumption; try lia.
  - rewrite length_stored_of. lia.
  - intros x. now apply take_stored_of_good.
Qed.

(** The minimum of the published values is the minimum of the buffer. *)
Lemma published_minimum (k : Z) :
  0 <= k -> N = 2 ^ k -> 1 <= G -> Z.of_nat (length buffer) = L ->
  cells_min (value_at <$> seqZ 0 G) = cells_min buffer.
Proof.
  intros Hk HN HG Hlen. apply Z.le_antisymm.
  - apply cells_min_greatest; [apply cells_min_le_max | ].
    intros x (i & Hi)%list_elem_of_lookup.
    pose proof (lookup_lt_Some _ _ _ Hi) as Hilen.
    assert (HW : 1 <= G * N) by nia.
    pose proof (Z.mod_pos_bound (Z.of_nat i) (G * N) ltac:(lia)) as Hg.
    set (g := Z.of_nat i mod (G * N)) in *.
    assert (0 <= g / N < G).
    { split; [apply Z.div_pos; lia | apply Z.div_lt_upper_bound; lia]. }
    pose proof (Z.mod_pos_bound g N ltac:(lia)) as Hli.
    etransitivity; [apply (cells_min_lower _ (value_at (g / N))) | ].
    { apply list_elem_of_fmap. exists (g / N). split; [reflexivity | ].
      apply elem_of_seqZ. lia. }
    rewrite (value_of_power_of_two k) by assumption.
    etransitivity;
      [apply (cells_min_lower _ (cells_min (cells_of (g / N * N + g mod N)))) | ].
    { rewrite take_stored_of by assumption. apply list_elem_of_fmap.
      exists (g mod N). split; [reflexivity | ]. apply elem_of_seqZ. lia. }
    apply cells_min_lower.
    replace (g / N * N + g mod N) with g by (rewrite (Z.div_mod g N) at 1; lia).
    apply item_cells_has; [assumption | lia | now rewrite Nat2Z.id].
  - apply cells_min_greatest; [apply cells_min_le_max | ].
    intros x (grp & -> & Hgrp%elem_of_seqZ)%list_elem_of_fmap.
    rewrite (value_of_power_of_two k) by (assumption || lia).
    apply cells_min_greatest; [apply cells_min_le_max | ].
    intros y Hy. rewrite take_stored_of in Hy by lia.
    apply list_elem_of_fmap in Hy as (li & -> & Hli%elem_of_seqZ).
    apply cells_min_greatest; [apply cells_min_le_max | ].
    intros z Hz. apply cells_min_lower.
    pose proof (global_id_range grp li ltac:(lia) ltac:(lia)).
    apply (item_cells_sub (grp * N + li)); [lia | lia | assumption].
Qed.

End Launch.

(** ** Further facts used below *)

Lemma scan_item_nonpositive (fuel : nat) (buffer : memory) (L W g : Z) :
  L <= 0 -> 0 <= g < 2 ^ 31 -> (1 <= fuel)%nat ->
  scan_item fuel buffer L W g = Ok (INFINITY, []).
Proof.
  intros HL Hg Hfuel. unfold scan_item. rewrite sint32_id by lia.
  destruct fuel as [ | fuel]; [lia | ]. cbn [scan].
  destruct (Z.ltb_spec g L); [lia | reflexivity].
Qed.

Lemma truncate_nonneg (m : positive) (e : Z) : 0 <= truncate m e.
Proof.
  unfold truncate. destruct (Z.leb_spec 0 e).
  - apply Z.mul_nonneg_nonneg; [lia | apply Z.pow_nonneg; lia].
  - apply Z.div_pos; [lia | apply Z.pow_pos_nonneg; lia].
Qed.

Lemma float_to_ulong_range (out_of_range : float -> Z) (f : float) :
  0 <= float_to_ulong out_of_range f < 2 ^ 64.
Proof.
  pose proof (Z.mod_pos_bound (out_of_range f) (2 ^ 64) ltac:(lia)) as Hmod.
  destruct f as [s | s | | s m e]; cbn [float_to_ulong]; try lia.
  pose proof (truncate_nonneg m e).
  destruct s.
  - destruct (truncate m e =? 0); lia.
  - destruct (Z.ltb_spec (truncate m e) (2 ^ 64)); lia.
Qed.

Lemma idle_cell_range (out_of_range : float -> Z) (N : Z) :
  0 <= idle_cell out_of_range N < 2 ^ 64.
Proof.
  unfold idle_cell. destruct (Z.to_nat (Z.log2 N)) as [ | n]; cbn [Nat.iter].
  - apply float_to_ulong_range.
  - unfold settle at 1, fold_cells. apply float_to_ulong_range.
Qed.

(** The rounds on a [scratch] whose first [b] cells are equal. *)
Lemma tree_constant (out_of_range : float -> Z) (offs : list Z) (b : Z)
    (scratch : list Z) (v : Z) :
  1 <= b -> descending b offs -> b <= Z.of_nat (length scratch) ->
  (forall j : nat, Z.of_nat j < b -> scratch !!! j = v) ->
  tree out_of_range offs scratch !!! 0%nat
  = Nat.iter (length offs) (settle out_of_range) v.
Proof.
  revert b scratch v.
  induction offs as [ | o offs IH]; intros b scratch v Hb Hd Hlen Hv.
  - cbn. apply Hv. lia.
  - destruct Hd as (Ho & Hob & Hd). cbn [tree foldl length].
    fold (tree out_of_range offs (round_result out_of_range o scratch)).
    rewrite Nat.iter_succ_r. apply (IH o); [lia | assumption | | ].
    + rewrite length_round_result. lia.
    + intros j Hj. rewrite lookup_total_round_result by lia.
      destruct (Z.ltb_spec (Z.of_nat j) o); [ | lia].
      rewrite !Hv by lia. reflexivity.
Qed.

Lemma chain_halvings (fuel : nat) (N : Z) :
  1 <= N <= 2 ^ 31 -> (33 <= fuel)%nat -> chain fuel (N / 2) = halvings N.
Proof.
  intros HN Hfuel.
  assert (0 <= N / 2) by (apply Z.div_pos; lia).
  assert (2 * (N / 2) <= N) by (apply Z.mul_div_le; lia).
  rewrite chain_closed, bits_half_log2; [ | lia .. | apply loop_fuel_enough; lia].
  apply list_fmap_ext. intros i k Hk.
  apply list_elem_of_lookup_2, elem_of_seqZ in Hk.
  rewrite Z.div_div by (try apply Z.pow_pos_nonneg; lia).
  f_equal. rewrite Z.pow_add_r by lia. lia.
Qed.

Lemma decode_exact (c : Z) : 0 <= c < 2 ^ 24 -> decode (ulong_to_float c) = c.
Proof. apply float_to_ulong_small. Qed.

Lemma select_min_exact_or_idle (a b : float) :
  exact_or_idle a -> exact_or_idle b ->
  exact_or_idle (select_min a b) /\
  decode (select_min a b) = Z.min (decode a) (decode b).
Proof.
  intros [-> | (c & Hc & ->)] [-> | (d & Hd & ->)].
  - split; [now left | reflexivity].
  - rewrite select_min_INFINITY, decode_exact by assumption.
    split; [right; now exists d | ].
    change (decode INFINITY) with ULONG_MAX. unfold ULONG_MAX. lia.
  - unfold select_min. rewrite float_lt_small_INFINITY by assumption.
    rewrite decode_exact by assumption.
    split; [right; now exists c | ].
    change (decode INFINITY) with ULONG_MAX. unfold ULONG_MAX. lia.
  - rewrite select_min_small, !decode_exact by lia.
    split; [right; exists (Z.min c d); split; [lia | reflexivity] | reflexivity].
Qed.

Lemma fold_select_min_exact_or_idle (accs : list float) (a : float) :
  exact_or_idle a -> Forall exact_or_idle accs ->
  exact_or_idle (foldl select_min a accs) /\
  decode (foldl select_min a accs) = Z.min (decode a) (cells_min (decode <$> accs)).
Proof.
  intros Ha Haccs. revert a Ha.
  induction Haccs as [ | b accs Hb _ IH]; intros a Ha; cbn [foldl fmap list_fmap].
  - split; [assumption | ]. cbn. unfold decode.
    pose proof (float_to_ulong_range saturating a). unfold ULONG_MAX. lia.
  - destruct (select_min_exact_or_idle a b Ha Hb) as [Hab Hdec].
    destruct (IH _ Hab) as [IH1 IH2]. split; [assumption | ].
    rewrite IH2, Hdec. cbn [cells_min foldr].
    fold (cells_min (decode <$> accs)). lia.
Qed.

Lemma folded_has_slot_0 (offs : list Z) : 0%nat ∈ folded offs.
Proof.
  induction offs as [ | o offs IH]; [apply list_elem_of_here | ].
  cbn [folded foldr]. fold (folded offs). apply elem_of_app. now left.
Qed.

(** * The claims *)

(** ** C1: the minimum over the published cells *)

(** C1 as stated fails.  A group of 3 work-items never folds its third
    slot: on [[5; 3; 1]] it publishes 3.  A cell of value 2^24 + 1 is
    published as 2^24.  On a platform that converts an infinite [float] to
    0, a launch with more work-items than cells publishes 0 for the buffer
    [[5]].  And with 2^31 work-items the index of a work-item wraps around
    and the scan reads outside the buffer. *)
Lemma published_minimum_differs :
  pir saturating 40 [5; 3; 1] [] [0; 0; 0] 3 [0] 1 3 = Ok ([3], [[3; 3; 1]]) /\
  pir saturating 40 [16777217] [] [0] 1 [0] 1 1 = Ok ([16777216], [[16777216]]) /\
  pir zeroing 40 [5] [] [0; 0] 1 [7] 1 2 = Ok ([0], [[0; 0]]) /\
  scan_item 10 (read [7; 7]) 2 (2 ^ 31) 1 = OutOfBounds (- 2 ^ 31 + 1).
Proof. repeat split; reflexivity. Qed.

(** C1, amended. For a non-empty input vector of cells below 2^24 and a
    launch of [G >= 1] groups of a power-of-two size [N] without
    wrap-around ([G * N + length <= 2^31]), in which every work-item
    visits a cell ([G * N <= length]) or the platform converts
    out-of-range floats to [ULONG_MAX], the minimum over the [G] cells the
    kernel writes to [output] is the minimum of the input vector. *)
Theorem published_minimum_is_true_minimum (out_of_range : float -> Z)
    (fuel : nat) (buffer mask scratch : list Z) (L : Z) (output : list Z)
    (G N k : Z) :
  0 <= k -> N = 2 ^ k -> 1 <= G -> G * N + L <= 2 ^ 31 ->
  1 <= L -> Z.of_nat (length buffer) = L ->
  Forall (fun c => 0 <= c < 2 ^ 24) buffer ->
  G * N <= L \/ saturates out_of_range ->
  N <= Z.of_nat (length scratch) -> G <= Z.of_nat (length output) ->
  (Z.to_nat L < fuel)%nat -> (33 <= fuel)%nat ->
  exists out groups m,
    pir out_of_range fuel buffer mask scratch L output G N = Ok (out, groups) /\
    is_minimum m (take (Z.to_nat G) out) /\
    is_minimum m buffer.
Proof.
  intros Hk HN HG Hwrap HL Hlen Hsmall Hcase Hscr Hout Hfuel Hfuel'.
  assert (HNpos : 1 <= N) by (subst N; pose proof (Z.pow_pos_nonneg 2 k); lia).
  assert (Hids : G * N <= 2 ^ 31) by lia.
  exists ((value_of out_of_range fuel buffer scratch L G N <$> seqZ 0 G)
            ++ drop (Z.to_nat G) output).
  exists (reduced_of out_of_range fuel buffer scratch L G N <$> seqZ 0 G).
  exists (cells_min buffer).
  split; [apply pir_spec; lia | ].
  rewrite take_app_length' by (now rewrite length_fmap, length_seqZ).
  assert (Hne : buffer <> []) by (intros ->; cbn in Hlen; lia).
  pose proof (cells_min_small buffer Hsmall Hne) as Hrange.
  assert (Hin : cells_min buffer ∈ buffer).
  { destruct (cells_min_attained buffer) as [Hmax | Hin]; [ | exact Hin].
    unfold ULONG_MAX in Hmax. lia. }
  split; [ | split; [exact Hin | apply cells_min_lower] ].
  assert (Hpub :
            cells_min (value_of out_of_range fuel buffer scratch L G N <$> seqZ 0 G)
            = cells_min buffer)
    by (apply published_minimum with (k := k); first [assumption | lia]).
  rewrite <- Hpub in *.
  split; [ | apply cells_min_lower].
  destruct (cells_min_attained
              (value_of out_of_range fuel buffer scratch L G N <$> seqZ 0 G))
    as [Hmax | Hin']; [ | exact Hin'].
  unfold ULONG_MAX in Hmax. lia.
Qed.

Lemma published_minimum_is_true_minimum_witness :
  exists out groups m,
    pir saturating 40 [5; 3; 8; 1; 9; 2] [] [0; 0; 0; 0] 6 [0] 1 4 = Ok (out, groups) /\
    is_minimum m (take (Z.to_nat 1) out) /\
    is_minimum m [5; 3; 8; 1; 9; 2].
Proof.
  apply (published_minimum_is_true_minimum saturating 40 [5; 3; 8; 1; 9; 2] []
           [0; 0; 0; 0] 6 [0] 1 4 2); simpl; try lia.
  repeat constructor; lia.
Defined.

(** ** C2: what one group computes *)

(** C2 as stated fails for a group size that is a power of two.  A cell
    of value 2^24 + 1 is rounded by the conversion: the only work-item of
    the group visits that cell alone and [scratch[0]] holds 2^24.  On a
    platform that converts an infinite [float] to 0, the idle second
    work-item of a group of two stores 0, so that [scratch[0]] ends at 0
    while the accumulators were 5.0 and the seed.  And with 2^31
    work-items the index of work-item 2 wraps around after its first read
    and the scan reads outside the buffer. *)
Lemma group_of_power_of_two_misses_minimum :
  run_group saturating 40 [16777217] 1 1 1 0 [0] [0]
  = Ok (GroupRun [S754_finite false 8388608 1] [16777216] [16777216] [] [16777216]) /\
  run_group zeroing 40 [5] 1 1 2 0 [0; 0] [7]
  = Ok (GroupRun [ulong_to_float 5; INFINITY] [5; 0] [0; 0] [1] [0]) /\
  scan_item 10 (read [7; 7; 7]) 3 (2 ^ 31) 2 = OutOfBounds (- 2 ^ 31 + 2).
Proof. repeat split; reflexivity. Qed.

(** C2, amended. In a launch without wrap-around ([G * N <= 2^31],
    [G * N + length <= 2^31]) of groups of a power-of-two size [N], on
    cells below 2^24, when every work-item visits a cell
    ([G * N <= length]) or the platform converts out-of-range floats to
    [ULONG_MAX]: at the first barrier [scratch[i]] is the minimum of the
    cells work-item [i] visited ([ULONG_MAX] for none); after the loop
    [scratch[0]] is the minimum of these [N] cells, and it would be the
    same for any other arrangement of them in [scratch]; [output[group]]
    receives that value. *)
Theorem group_publishes_minimum (out_of_range : float -> Z) (fuel : nat)
    (buffer scratch : list Z) (L : Z) (output : list Z) (G N k grp : Z) :
  0 <= k -> N = 2 ^ k -> 0 <= grp < G ->
  G * N <= 2 ^ 31 -> G * N + L <= 2 ^ 31 ->
  L <= Z.of_nat (length buffer) ->
  Forall (fun c => 0 <= c < 2 ^ 24) buffer ->
  G * N <= L \/ saturates out_of_range ->
  N <= Z.of_nat (length scratch) -> grp < Z.of_nat (length output) ->
  (Z.to_nat L < fuel)%nat -> (33 <= fuel)%nat ->
  exists r,
    run_group out_of_range fuel buffer L G N grp scratch output = Ok r /\
    (forall li, 0 <= li < N ->
       stored r !! Z.to_nat li
       = Some (cells_min (cell_at (read buffer)
                            <$> stride (grp * N + li) (G * N) L))) /\
    reduced r !! 0%nat = Some (cells_min (take (Z.to_nat N) (stored r))) /\
    (forall stored', stored' ≡ₚ take (Z.to_nat N) (stored r) ->
       exists reduced' rounds',
         reduce out_of_range fuel N stored' = Ok (reduced', rounds') /\
         reduced' !! 0%nat = Some (cells_min (take (Z.to_nat N) (stored r)))) /\
    published r !! Z.to_nat grp = Some (cells_min (take (Z.to_nat N) (stored r))).
Proof.
  intros Hk HN Hgrp Hids Hwrap Hbuf Hsmall Hcase Hscr Hout Hfuel Hfuel'.
  assert (HNpos : 1 <= N) by (subst N; pose proof (Z.pow_pos_nonneg 2 k); lia).
  assert (HN31 : N <= 2 ^ 31) by nia.
  eexists. split; [apply run_group_spec; lia | ].
  cbn [stored reduced published].
  assert (Hval : value_of out_of_range fuel buffer scratch L G N grp
                 = cells_min (take (Z.to_nat N)
                                (stored_of out_of_range buffer scratch L G N grp)))
    by (apply value_of_power_of_two with (k := k); first [assumption | lia]).
  assert (Htake : take (Z.to_nat N) (stored_of out_of_range buffer scratch L G N grp)
                  = (fun li => cells_min (item_cells buffer L G N (grp * N + li)))
                      <$> seqZ 0 N)
    by (apply take_stored_of with (fuel := fuel); first [assumption | lia]).
  unfold value_of in Hval.
  assert (Hlen0 :
            (0 < length (reduced_of out_of_range fuel buffer scratch L G N grp))%nat)
    by (rewrite length_reduced_of; lia).
  repeat split.
  - intros li Hli. rewrite <- (lookup_take_lt _ (Z.to_nat N)) by lia.
    rewrite Htake, list_lookup_fmap, lookup_seqZ_lt by lia.
    cbn [fmap option_fmap option_map]. rewrite Z.add_0_l, Z2Nat.id by lia. reflexivity.
  - rewrite <- Hval. now apply list_lookup_lookup_total_lt.
  - intros stored' Hperm.
    assert (Hlen' : length stored' = Z.to_nat N).
    { rewrite Hperm, length_take.
      rewrite length_stored_of with (fuel := fuel); first [assumption | lia]. }
    do 2 eexists. split; [apply reduce_spec; lia | ].
    rewrite list_lookup_lookup_total_lt by (rewrite length_tree; lia). f_equal.
    rewrite (reduce_min_power_of_two out_of_range fuel N ltac:(lia) Hfuel' k);
      try assumption; try lia.
    + rewrite take_ge by lia. now apply cells_min_perm.
    + intros x. rewrite take_ge, Hperm by lia.
      apply take_stored_of_good with (fuel := fuel); first [assumption | lia].
  - rewrite list_lookup_insert_eq by lia. now rewrite Hval.
Qed.

Lemma group_publishes_minimum_witness :
  exists r,
    run_group saturating 40 [5; 3; 8; 1; 9; 2] 6 1 4 0 [0; 0; 0; 0] [0] = Ok r /\
    (forall li, 0 <= li < 4 ->
       stored r !! Z.to_nat li
       = Some (cells_min (cell_at (read [5; 3; 8; 1; 9; 2])
                            <$> stride (0 * 4 + li) (1 * 4) 6))) /\
    reduced r !! 0%nat = Some (cells_min (take (Z.to_nat 4) (stored r))) /\
    (forall stored', stored' ≡ₚ take (Z.to_nat 4) (stored r) ->
       exists reduced' rounds',
         reduce saturating 40 4 stored' = Ok (reduced', rounds') /\
         reduced' !! 0%nat = Some (cells_min (take (Z.to_nat 4) (stored r)))) /\
    published r !! Z.to_nat 0 = Some (cells_min (take (Z.to_nat 4) (stored r))).
Proof.
  apply (group_publishes_minimum saturating 40 [5; 3; 8; 1; 9; 2] [0; 0; 0; 0] 6 [0]
           1 4 2 0); simpl; try lia.
  repeat constructor; lia.
Defined.

(** ** C3: the scan partitions the indices *)

(** C3 as stated fails: with 2^31 work-items and one cell, work-item 0
    reads index 0, its index wraps around to -2^31, which is below the
    length, and the next read is outside the buffer. *)
Lemma scan_wraps_at_large_global_size :
  stride 0 (2 ^ 31) 1 = [0] /\
  scan_item 10 (read [7]) 1 (2 ^ 31) 0 = OutOfBounds (- 2 ^ 31).
Proof. split; reflexivity. Qed.

(** C3, amended. When the global size [W] and the length [L] satisfy
    [W <= 2^31] and [W + L <= 2^31], the work-item with global id [g]
    reads exactly the indices [g, g+W, g+2W, ...] below [L], each once,
    and every index of [[0, L)] is read by exactly one work-item. *)
Theorem scan_partitions_indices (fuel : nat) (buffer : list Z) (W L : Z) :
  1 <= W -> W <= 2 ^ 31 -> W + L <= 2 ^ 31 ->
  L <= Z.of_nat (length buffer) -> (Z.to_nat L < fuel)%nat ->
  (forall g, 0 <= g < W ->
     exists acc, scan_item fuel (read buffer) L W g = Ok (acc, stride g W L)) /\
  (forall g i, i ∈ stride g W L <-> exists k, 0 <= k /\ i = g + k * W /\ i < L) /\
  (forall g, NoDup (stride g W L)) /\
  (forall i, 0 <= i < L ->
     exists g, (0 <= g < W /\ i ∈ stride g W L) /\
               forall g', 0 <= g' < W -> i ∈ stride g' W L -> g' = g).
Proof.
  intros HW HW31 Hwrap Hbuf Hfuel. repeat split.
  - intros g Hg. eexists. apply scan_item_spec; try lia.
    intros i Hi. apply read_readable. lia.
  - now apply elem_of_stride.
  - now apply elem_of_stride.
  - intros g. now apply NoDup_stride.
  - intros i Hi. exists (i mod W).
    destruct (stride_partition W L HW i Hi) as [Hin Huniq]. split; [exact Hin | ].
    intros g' Hg' Hig'. now apply Huniq.
Qed.

Lemma scan_partitions_indices_witness :
  (forall g, 0 <= g < 4 ->
     exists acc,
       scan_item 8 (read [5; 3; 8; 1; 9; 2]) 6 4 g = Ok (acc, stride g 4 6)) /\
  (forall g i, i ∈ stride g 4 6 <-> exists k, 0 <= k /\ i = g + k * 4 /\ i < 6) /\
  (forall g, NoDup (stride g 4 6)) /\
  (forall i, 0 <= i < 6 ->
     exists g, (0 <= g < 4 /\ i ∈ stride g 4 6) /\
               forall g', 0 <= g' < 4 -> i ∈ stride g' 4 6 -> g' = g).
Proof.
  apply (scan_partitions_indices 8 [5; 3; 8; 1; 9; 2] 4 6); simpl; lia.
Defined.

(** ** C4: what the scan folds *)

(** C4 as stated fails: on the one-cell buffer [[1]] the accumulator is
    1.0, the value of the cell, while both float-width halves of the cell
    read as bit patterns give 2^-149 and 0. *)
Lemma scan_converts_the_value :
  scan_item 10 (read [1]) 1 1 0 = Ok (S754_finite false 8388608 (-23), [0]) /\
  fold_reinterpreted INFINITY [1] = S754_finite false 1 (-149) /\
  reinterpret_low 1 = S754_finite false 1 (-149) /\
  reinterpret_high 1 = S754_zero false.
Proof. repeat split; reflexivity. Qed.

(** C4, amended. What the scan folds into the accumulator for a visited
    cell is the numeric conversion of the cell's 64-bit unsigned value to
    binary32, rounded to nearest-even; for a cell below 2^24 the float
    [m * 2^e] it folds has exactly the value of the cell. *)
Theorem scan_folds_converted_values (fuel : nat) (buffer : list Z) (W L g : Z) :
  1 <= W -> W <= 2 ^ 31 -> W + L <= 2 ^ 31 -> 0 <= g < W ->
  L <= Z.of_nat (length buffer) -> (Z.to_nat L < fuel)%nat ->
  scan_item fuel (read buffer) L W g
  = Ok (foldl (fun acc cell => select_min acc (binary_normalize 24 128 cell 0 false))
          INFINITY (cell_at (read buffer) <$> stride g W L),
        stride g W L) /\
  (forall c, 0 < c < 2 ^ 24 ->
     exists m e, ulong_to_float c = S754_finite false m e /\
                 e <= 0 /\ Z.pos m = c * 2 ^ (- e)).
Proof.
  intros HW HW31 Hwrap Hg Hbuf Hfuel. split.
  - rewrite (scan_item_spec (read buffer) W L); try lia.
    + reflexivity.
    + intros i Hi. apply read_readable. lia.
  - intros c Hc. destruct c as [ | p | p]; try lia.
    exists (mantissa24 p), (Z.pos (digits2_pos p) - 24).
    pose proof (digits2_pos_le p 24 ltac:(lia)).
    rewrite ulong_to_float_small, mantissa24_value by lia.
    split; [reflexivity | split; [lia | ] ].
    now replace (- (Z.pos (digits2_pos p) - 24))
      with (24 - Z.pos (digits2_pos p)) by lia.
Qed.

Lemma scan_folds_converted_values_witness :
  scan_item 8 (read [5; 3; 8; 1; 9; 2]) 6 4 1
  = Ok (foldl (fun acc cell => select_min acc (binary_normalize 24 128 cell 0 false))
          INFINITY (cell_at (read [5; 3; 8; 1; 9; 2]) <$> stride 1 4 6),
        stride 1 4 6) /\
  (forall c, 0 < c < 2 ^ 24 ->
     exists m e, ulong_to_float c = S754_finite false m e /\
                 e <= 0 /\ Z.pos m = c * 2 ^ (- e)).
Proof.
  apply (scan_folds_converted_values 8 [5; 3; 8; 1; 9; 2] 4 6 1); simpl; lia.
Defined.

(** ** C5: the empty input *)

(** C5 as stated fails: [output] is an array of [ulong] cells.  A single
    work-item on the empty input publishes the conversion of its infinite
    accumulator: [ULONG_MAX] on a saturating platform, 0 on a zeroing one.
    Read as a value these cells are 2^64 and 0; read as bit patterns a
    NaN and 0; never an infinity.  And in a launch of 2^31 + 1 work-items
    the global id 2^31 becomes the index -2^31, which is below the length
    0: that work-item reads outside the buffer. *)
Lemma empty_input_publishes_an_integer :
  pir saturating 40 [] [] [0] 0 [7] 1 1 = Ok ([ULONG_MAX], [[ULONG_MAX]]) /\
  ulong_to_float ULONG_MAX = two_64 /\
  reinterpret_low ULONG_MAX = S754_nan /\
  reinterpret_high ULONG_MAX = S754_nan /\
  pir zeroing 40 [] [] [0] 0 [7] 1 1 = Ok ([0], [[0]]) /\
  ulong_to_float 0 = S754_zero false /\
  reinterpret_low 0 = S754_zero false /\
  scan_item 10 (read []) 0 (2 ^ 31 + 1) (2 ^ 31) = OutOfBounds (- 2 ^ 31).
Proof. repeat split; reflexivity. Qed.

(** C5, amended. For every launch of at most 2^31 work-items with
    [length = 0], no buffer element is read, every accumulator stays at
    positive infinity, and every group's output cell receives the same
    64-bit integer: the implementation-defined conversion of positive
    infinity to [ulong], passed through [floor (log2 N)] rounds.  That cell
    never converts back to an infinity. *)
Theorem empty_input_publishes_converted_seed (out_of_range : float -> Z)
    (fuel : nat) (buffer mask scratch output : list Z) (G N : Z) :
  1 <= N -> 0 <= G -> G * N <= 2 ^ 31 ->
  N <= Z.of_nat (length scratch) -> G <= Z.of_nat (length output) ->
  (33 <= fuel)%nat ->
  (forall g, 0 <= g < G * N ->
     scan_item fuel (read buffer) 0 (G * N) g = Ok (INFINITY, [])) /\
  (exists groups,
     pir out_of_range fuel buffer mask scratch 0 output G N
     = Ok (replicate (Z.to_nat G) (idle_cell out_of_range N)
             ++ drop (Z.to_nat G) output, groups)) /\
  0 <= idle_cell out_of_range N < 2 ^ 64 /\
  ulong_to_float (idle_cell out_of_range N) <> INFINITY.
Proof.
  intros HN HG Hids Hscr Hout Hfuel. split; [ | split; [ | split] ].
  - intros g Hg. apply scan_item_nonpositive; lia.
  - assert (Hvals : value_of out_of_range fuel buffer scratch 0 G N <$> seqZ 0 G
                    = replicate (Z.to_nat G) (idle_cell out_of_range N)).
    { rewrite <- (length_seqZ 0 G).
      rewrite <- (const_fmap (fun _ => idle_cell out_of_range N)) by reflexivity.
      apply list_fmap_ext. intros i grp Hgrp.
      apply list_elem_of_lookup_2, elem_of_seqZ in Hgrp.
      assert (HN31 : N <= 2 ^ 31) by nia.
      unfold value_of, reduced_of, rounds_of, idle_cell.
      rewrite (tree_constant out_of_range _ N _ (float_to_ulong out_of_range INFINITY)).
      + rewrite chain_halvings by lia. unfold halvings.
        now rewrite length_fmap, length_seqZ.
      + lia.
      + apply chain_descending. apply Z.mul_div_le; lia.
      + rewrite length_stored_of with (fuel := fuel); lia.
      + intros j Hj. apply list_lookup_total_correct. unfold stored_of.
        rewrite lookup_app_l by (rewrite length_fmap, length_accs_of; lia).
        unfold accs_of. rewrite <- list_fmap_compose, list_lookup_fmap.
        rewrite lookup_seqZ_lt by lia. cbn [fmap option_fmap option_map compose].
        unfold item_cells. rewrite stride_nil; [reflexivity | nia | nia]. }
    eexists. rewrite pir_spec by lia. rewrite Hvals. reflexivity.
  - apply idle_cell_range.
  - apply ulong_to_float_finite, idle_cell_range.
Qed.

Lemma empty_input_publishes_converted_seed_witness :
  (forall g, 0 <= g < 2 * 2 ->
     scan_item 40 (read []) 0 (2 * 2) g = Ok (INFINITY, [])) /\
  (exists groups,
     pir zeroing 40 [] [] [0; 0] 0 [7; 7] 2 2
     = Ok (replicate (Z.to_nat 2) (idle_cell zeroing 2) ++ drop (Z.to_nat 2) [7; 7],
           groups)) /\
  0 <= idle_cell zeroing 2 < 2 ^ 64 /\
  ulong_to_float (idle_cell zeroing 2) <> INFINITY.
Proof.
  apply (empty_input_publishes_converted_seed zeroing 40 [] [] [0; 0] [7; 7] 2 2);
    simpl; lia.
Defined.

(** ** C6: group sizes that are not powers of two *)

(** C6 as stated fails: on a platform that converts an infinite [float]
    to 0, in a group of 3 work-items whose accumulators are 5.0, the seed
    and the seed, the unfolded slot 2 holds the identity, yet slot 1, which
    is folded, was stored as 0 and [scratch[0]] ends at 0, not 5. *)
Lemma idle_folded_slot_breaks_minimum :
  folded (halvings 3) = [0%nat; 1%nat] /\
  store_all zeroing 0 [ulong_to_float 5; INFINITY; INFINITY] [0; 0; 0]
  = Ok [5; 0; 0] /\
  reduce zeroing 40 3 [5; 0; 0] = Ok ([0; 0; 0], [1]) /\
  foldl select_min INFINITY [ulong_to_float 5; INFINITY; INFINITY]
  = ulong_to_float 5.
Proof. repeat split; reflexivity. Qed.

(** C6, amended. For every group size [1 <= N <= 2^31], power of two or
    not: if the accumulators of the slots that the halving rounds never
    fold into slot 0 are the identity (positive infinity), and the
    accumulators of the folded slots are the images of integers below
    2^24, then after the stores and the loop [scratch[0]], converted back
    to [float], is the minimum of all [N] accumulators. *)
Theorem identity_in_unfolded_slots_suffices (out_of_range : float -> Z)
    (fuel : nat) (N : Z) (accs : list float) (scratch : list Z) :
  1 <= N <= 2 ^ 31 -> Z.of_nat (length accs) = N ->
  N <= Z.of_nat (length scratch) -> (33 <= fuel)%nat ->
  Forall (fun j => exists c, 0 <= c < 2 ^ 24 /\ accs !! j = Some (ulong_to_float c))
         (folded (halvings N)) ->
  Forall (fun j => j ∈ folded (halvings N) \/ accs !! j = Some INFINITY)
         (seq 0 (Z.to_nat N)) ->
  exists stored reduced rounds,
    store_all out_of_range 0 accs scratch = Ok stored /\
    reduce out_of_range fuel N stored = Ok (reduced, rounds) /\
    ulong_to_float (reduced !!! 0%nat) = foldl select_min INFINITY accs.
Proof.
  intros HN Hlen Hscr Hfuel Hfolded Hidle.
  rewrite Forall_forall in Hfolded. rewrite Forall_forall in Hidle.
  set (stored := (float_to_ulong out_of_range <$> accs) ++ drop (length accs) scratch).
  assert (Hstore : store_all out_of_range 0 accs scratch = Ok stored).
  { pose proof (store_all_spec out_of_range accs 0 scratch) as Hs.
    change (Z.of_nat 0) with 0 in Hs. rewrite Hs by lia. reflexivity. }
  assert (Hslen : length stored = length scratch).
  { unfold stored. rewrite length_app, length_fmap, length_drop. lia. }
  assert (Hcell : forall j c, accs !! j = Some (ulong_to_float c) -> 0 <= c < 2 ^ 24 ->
            stored !!! j = c).
  { intros j c Hj Hc. apply list_lookup_total_correct. unfold stored.
    rewrite lookup_app_l by (rewrite length_fmap; now apply lookup_lt_Some in Hj).
    rewrite list_lookup_fmap, Hj. cbn. now rewrite float_to_ulong_small. }
  exists stored, (tree out_of_range (chain fuel (N / 2)) stored), (chain fuel (N / 2)).
  split; [exact Hstore | ]. split; [apply reduce_spec; lia | ].
  rewrite reduce_min; try lia.
  2:{ intros j Hj. rewrite chain_halvings in Hj by lia.
      destruct (Hfolded j Hj) as (c & Hc & Hjc). rewrite (Hcell j c) by assumption.
      now left. }
  rewrite chain_halvings by lia.
  set (m := cells_min ((fun j => stored !!! j) <$> folded (halvings N))).
  assert (Hall : Forall exact_or_idle accs).
  { apply Forall_forall. intros a (j & Hj)%list_elem_of_lookup.
    pose proof (lookup_lt_Some _ _ _ Hj) as Hjl.
    destruct (Hidle j) as [Hin | Hinf].
    - apply elem_of_seq. lia.
    - destruct (Hfolded j Hin) as (c & Hc & Hjc).
      right. exists c. split; [assumption | congruence].
    - left. congruence. }
  destruct (fold_select_min_exact_or_idle accs INFINITY ltac:(now left) Hall)
    as [Hres Hdec].
  change (decode INFINITY) with ULONG_MAX in Hdec.
  pose proof (cells_min_le_max (decode <$> accs)) as Hmax.
  rewrite Z.min_r in Hdec by assumption.
  assert (Hm : m = cells_min (decode <$> accs)).
  { apply Z.le_antisymm.
    - apply cells_min_greatest; [apply cells_min_le_max | ].
      intros x (a & -> & (j & Hj)%list_elem_of_lookup)%list_elem_of_fmap.
      pose proof (lookup_lt_Some _ _ _ Hj) as Hjl.
      destruct (Hidle j) as [Hin | Hinf]; [apply elem_of_seq; lia | | ].
      + destruct (Hfolded j Hin) as (c & Hc & Hjc).
        assert (a = ulong_to_float c) as -> by congruence.
        rewrite decode_exact by assumption. apply cells_min_lower.
        apply list_elem_of_fmap. exists j. split; [ | assumption].
        symmetry. now apply Hcell.
      + assert (a = INFINITY) as -> by congruence. apply cells_min_le_max.
    - apply cells_min_greatest; [apply cells_min_le_max | ].
      intros x (j & -> & Hj)%list_elem_of_fmap.
      destruct (Hfolded j Hj) as (c & Hc & Hjc). rewrite (Hcell j c) by assumption.
      apply cells_min_lower. apply list_elem_of_fmap. exists (ulong_to_float c).
      split; [now rewrite decode_exact | ]. now apply list_elem_of_lookup_2 in Hjc. }
  assert (Hsmall : 0 <= m < 2 ^ 24).
  { destruct (Hfolded 0%nat (folded_has_slot_0 _)) as (c0 & Hc0 & H0).
    assert (m <= c0).
    { apply cells_min_lower. apply list_elem_of_fmap. exists 0%nat.
      split; [symmetry; now apply Hcell | apply folded_has_slot_0]. }
    destruct (cells_min_attained ((fun j => stored !!! j) <$> folded (halvings N)))
      as [Htop | Hin].
    - fold m in Htop. unfold ULONG_MAX in Htop. lia.
    - fold m in Hin. apply list_elem_of_fmap in Hin as (j & Hmj & Hj).
      destruct (Hfolded j Hj) as (c & Hc & Hjc).
      rewrite (Hcell j c) in Hmj by assumption.
      lia. }
  destruct Hres as [Hinf | (c & Hc & Hres)].
  - rewrite Hinf in Hdec. change (decode INFINITY) with ULONG_MAX in Hdec.
    unfold ULONG_MAX in Hdec. lia.
  - rewrite Hres in Hdec |- *. rewrite decode_exact in Hdec by assumption.
    f_equal. lia.
Qed.

Lemma identity_in_unfolded_slots_suffices_witness :
  exists stored reduced rounds,
    store_all zeroing 0 [ulong_to_float 5; ulong_to_float 3; INFINITY] [0; 0; 0]
    = Ok stored /\
    reduce zeroing 40 3 stored = Ok (reduced, rounds) /\
    ulong_to_float (reduced !!! 0%nat)
    = foldl select_min INFINITY [ulong_to_float 5; ulong_to_float 3; INFINITY].
Proof.
  apply (identity_in_unfolded_slots_suffices zeroing 40 3
           [ulong_to_float 5; ulong_to_float 3; INFINITY] [0; 0; 0]);
    simpl; try lia.
  - repeat constructor; [exists 5 | exists 3]; (split; [lia | reflexivity]).
  - apply Forall_cons; split; [left; apply list_elem_of_here | ].
    apply Forall_cons; split;
      [left; apply list_elem_of_further, list_elem_of_here | ].
    apply Forall_cons; split; [right; reflexivity | now apply Forall_nil].
Defined.

(** ** C7: the rounds of the tree reduction *)

(** C7 as stated fails: a group of 3 work-items runs one round, with
    offset 1, while the ceiling of log2 3 is 2. *)
Lemma three_items_one_round :
  reduce saturating 40 3 [5; 4; 1] = Ok ([4; 4; 1], [1]) /\ Z.log2_up 3 = 2.
Proof. split; reflexivity. Qed.

(** C7, amended. For every group size [1 <= N <= 2^31] the loop
    terminates after exactly [floor (log2 N)] rounds, whose offsets are
    [N/2, N/4, ..., 1]; the next halving gives 0.  That number is the
    ceiling of [log2 N] exactly when [N] is a power of two. *)
Theorem reduce_runs_log2_rounds (out_of_range : float -> Z) (fuel : nat)
    (N : Z) (scratch : list Z) :
  1 <= N <= 2 ^ 31 -> N <= Z.of_nat (length scratch) -> (33 <= fuel)%nat ->
  (exists reduced,
     reduce out_of_range fuel N scratch
     = Ok (reduced, (fun k => N / 2 ^ (k + 1)) <$> seqZ 0 (Z.log2 N))) /\
  N / 2 ^ (Z.log2 N + 1) = 0 /\
  (Z.log2 N = Z.log2_up N <-> exists k, N = 2 ^ k).
Proof.
  intros HN Hlen Hfuel.
  assert (0 <= N / 2) by (apply Z.div_pos; lia).
  assert (2 * (N / 2) <= N) by (apply Z.mul_div_le; lia).
  pose proof (loop_fuel_enough fuel (N / 2) Hfuel ltac:(lia)) as Hf.
  repeat split.
  - eexists. unfold reduce. rewrite sint32_id by lia.
    rewrite reduce_loop_spec by lia. cbn [app]. f_equal. f_equal.
    rewrite chain_closed, bits_half_log2 by lia.
    apply list_fmap_ext. intros i k Hk.
    apply list_elem_of_lookup_2, elem_of_seqZ in Hk.
    rewrite Z.div_div by (try apply Z.pow_pos_nonneg; lia).
    f_equal. rewrite Z.pow_add_r by lia. lia.
  - apply Z.div_small. pose proof (Z.log2_spec N ltac:(lia)) as [_ Hhi].
    replace (Z.log2 N + 1) with (Z.succ (Z.log2 N)) by lia. lia.
  - intros Heq. apply Z.log2_log2_up_exact in Heq; [ | lia].
    destruct Heq as [k Hk]. now exists k.
  - intros [k Hk]. apply Z.log2_log2_up_exact; [lia | ]. now exists k.
Qed.

Lemma reduce_runs_log2_rounds_witness :
  (exists reduced,
     reduce saturating 40 4 [5; 3; 8; 1]
     = Ok (reduced, (fun k => 4 / 2 ^ (k + 1)) <$> seqZ 0 (Z.log2 4))) /\
  4 / 2 ^ (Z.log2 4 + 1) = 0 /\
  (Z.log2 4 = Z.log2_up 4 <-> exists k, 4 = 2 ^ k).
Proof.
  apply (reduce_runs_log2_rounds saturating 40 4 [5; 3; 8; 1]); simpl; lia.
Defined.

(** ** C8: memory accesses *)

(** C8 as stated fails: with 2^31 - 1 cells and 2^20 work-items, work-item
    0 reads the indices 0, 2^20, ..., 2^31 - 2^20; the next addition wraps
    its index around to -2^31, which is below the length, and the read at
    that index is outside the buffer. *)
Lemma scan_reads_below_the_buffer :
  scan_item 4096 (zeroed (2 ^ 31 - 1)) (2 ^ 31 - 1) (2 ^ 20) 0
  = OutOfBounds (- 2 ^ 31).
Proof. vm_compute. reflexivity. Qed.

(** C8, amended. In a launch of [G] groups of [N] work-items with
    [G * N <= 2^31] and [G * N + length <= 2^31], every read of [buffer] is
    at an index in [[0, length)], and the kernel runs to its end on a
    [buffer] of exactly [length] cells, a [scratch] of exactly [N] cells
    and an [output] of exactly [G] cells: no access falls outside them. *)
Theorem accesses_stay_in_bounds (out_of_range : float -> Z) (fuel : nat)
    (buffer mask scratch : list Z) (L : Z) (output : list Z) (G N : Z) :
  1 <= N -> 0 <= G -> G * N <= 2 ^ 31 -> G * N + L <= 2 ^ 31 ->
  length buffer = Z.to_nat L -> length scratch = Z.to_nat N ->
  length output = Z.to_nat G ->
  (Z.to_nat L < fuel)%nat -> (33 <= fuel)%nat ->
  (forall g, 0 <= g < G * N ->
     exists acc visited,
       scan_item fuel (read buffer) L (G * N) g = Ok (acc, visited) /\
       forall i, i ∈ visited -> 0 <= i < L) /\
  (exists result,
     pir out_of_range fuel buffer mask scratch L output G N = Ok result).
Proof.
  intros HN HG Hids Hwrap Hbuf Hscr Hout Hfuel Hfuel'. split.
  - intros g Hg. do 2 eexists. split.
    + apply scan_item_spec; try lia. intros i Hi. apply read_readable. lia.
    + intros i (k & Hk & -> & Hlt)%elem_of_stride; [ | lia]. nia.
  - eexists. apply pir_spec; lia.
Qed.

Lemma accesses_stay_in_bounds_witness :
  (forall g, 0 <= g < 1 * 4 ->
     exists acc visited,
       scan_item 40 (read [5; 3; 8; 1; 9; 2]) 6 (1 * 4) g = Ok (acc, visited) /\
       forall i, i ∈ visited -> 0 <= i < 6) /\
  (exists result,
     pir saturating 40 [5; 3; 8; 1; 9; 2] [] [0; 0; 0; 0] 6 [0] 1 4 = Ok result).
Proof.
  apply (accesses_stay_in_bounds saturating 40 [5; 3; 8; 1; 9; 2] [] [0; 0; 0; 0]
           6 [0] 1 4);
    simpl; lia.
Defined.

(** ** C9: the [mask] argument *)

(** C9. The kernel never reads [mask]: two launches that differ only in
    the contents of [mask] leave the same [output] and the same [scratch]
    in every group, and stop the same way when they do not finish. *)
Theorem mask_is_inert (out_of_range : float -> Z) (fuel : nat)
    (buffer mask mask' scratch : list Z) (length : Z) (output : list Z)
    (num_groups local_size : Z) :
  pir out_of_range fuel buffer mask scratch length output num_groups local_size
  = pir out_of_range fuel buffer mask' scratch length output num_groups local_size.
Proof. reflexivity. Qed.

(** ** C10: a length that is not positive *)

(** C10 as stated fails, for work-items whose global id does not fit an
    [int].  In a launch of 2^32 work-items the global id 2^32 - 1 becomes
    the index -1: with length 0 the loop body runs and reads outside the
    buffer, with length -5 it does not run.  In a launch of 2^31 + 1
    work-items the global id 2^31 becomes the index -2^31, and the body
    runs with the negative length -5. *)
Lemma negative_index_enters_the_loop :
  scan_item 10 (read []) 0 (2 ^ 32) (2 ^ 32 - 1) = OutOfBounds (- 1) /\
  scan_item 10 (read []) (- 5) (2 ^ 32) (2 ^ 32 - 1) = Ok (INFINITY, []) /\
  scan_item 10 (read []) (- 5) (2 ^ 31 + 1) (2 ^ 31) = OutOfBounds (- 2 ^ 31).
Proof. repeat split; reflexivity. Qed.

(** C10, amended. In a launch of at most 2^31 work-items, with any
    [length <= 0] the loop body never runs: no work-item reads [buffer],
    every accumulator keeps the seed, and the kernel does exactly what it
    does on an empty input with length 0. *)
Theorem nonpositive_length_as_empty (out_of_range : float -> Z) (fuel : nat)
    (buffer mask scratch : list Z) (L : Z) (output : list Z) (G N : Z) :
  L <= 0 -> G * N <= 2 ^ 31 -> (1 <= fuel)%nat ->
  (forall g, 0 <= g < G * N ->
     scan_item fuel (read buffer) L (G * N) g = Ok (INFINITY, [])) /\
  pir out_of_range fuel buffer mask scratch L output G N
  = pir out_of_range fuel [] mask scratch 0 output G N.
Proof.
  intros HL Hids Hfuel. split.
  - intros g Hg. apply scan_item_nonpositive; lia.
  - unfold pir. apply foldM_ext. intros grp st Hgrp%elem_of_seqZ.
    unfold pir_group, run_group.
    rewrite (mapM_ext _ (fun local_id =>
               scan_item fuel (read []) 0 (G * N) (grp * N + local_id)));
      [reflexivity | ].
    intros li Hli%elem_of_seqZ.
    rewrite !scan_item_nonpositive; try lia; try reflexivity; nia.
Qed.

Lemma nonpositive_length_as_empty_witness :
  (forall g, 0 <= g < 2 * 2 ->
     scan_item 40 (read [5; 3; 8]) (- 3) (2 * 2) g = Ok (INFINITY, [])) /\
  pir saturating 40 [5; 3; 8] [] [0; 0] (- 3) [7; 7] 2 2
  = pir saturating 40 [] [] [0; 0] 0 [7; 7] 2 2.
Proof.
  apply (nonpositive_length_as_empty saturating 40 [5; 3; 8] [] [0; 0] (- 3)
           [7; 7] 2 2);
    simpl; lia.
Defined.

(** * Further properties of the kernel *)

(** ** The rounds and the barrier *)

(** X1. Between two barriers the order in which the work-items of a group
    run the body of the loop does not matter: on a [scratch] with room for
    both halves, every order of the [N] work-items reaches the barrier
    with the [scratch] that the order of the local ids gives. *)
Theorem round_is_schedule_independent (out_of_range : float -> Z) (N o : Z)
    (order scratch : list Z) :
  order ≡ₚ seqZ 0 N ->
  0 < o -> 2 * o <= N -> N <= 2 ^ 31 -> N <= Z.of_nat (length scratch) ->
  foldM (fold_item out_of_range o) order scratch = round out_of_range N o scratch.
Proof.
  intros Hperm Ho HN H31 Hlen.
  rewrite (round_any_order out_of_range N o order) by assumption.
  now rewrite round_spec.
Qed.

Lemma round_is_schedule_independent_witness :
  foldM (fold_item zeroing 2) [3; 1; 0; 2] [5; 3; 8; 1] = round zeroing 4 2 [5; 3; 8; 1].
Proof.
  apply (round_is_schedule_independent zeroing 4 2 [3; 1; 0; 2] [5; 3; 8; 1]);
    simpl; try lia.
  refine (bool_decide_unpack _ _). vm_compute. exact I.
Defined.

Lemma lookup_round_result_upper (out_of_range : float -> Z) (o : Z)
    (scratch : list Z) (j : nat) :
  o <= Z.of_nat j -> round_result out_of_range o scratch !! j = scratch !! j.
Proof.
  intros Hj. unfold round_result. rewrite list_lookup_imap.
  destruct (scratch !! j); [ | reflexivity]. cbn [fmap option_fmap option_map].
  destruct (Z.ltb_spec (Z.of_nat j) o); [lia | reflexivity].
Qed.

Lemma tree_upper (out_of_range : float -> Z) (offs : list Z) (b : Z)
    (scratch : list Z) (j : nat) :
  descending b offs -> b <= 2 * Z.of_nat j ->
  tree out_of_range offs scratch !! j = scratch !! j.
Proof.
  revert b scratch. induction offs as [ | o offs IH]; intros b scratch Hd Hj.
  - reflexivity.
  - destruct Hd as (Ho & Hob & Hd). cbn [tree foldl].
    fold (tree out_of_range offs (round_result out_of_range o scratch)).
    rewrite (IH o) by (assumption || lia).
    apply lookup_round_result_upper. lia.
Qed.

(** X2. The loop only writes below its first offset: it leaves the length
    of [scratch] unchanged and every cell at an index of [N / 2] and above
    as the stores before the first barrier left it. *)
Theorem loop_keeps_upper_half (out_of_range : float -> Z) (fuel : nat) (N : Z)
    (scratch : list Z) :
  1 <= N <= 2 ^ 31 -> N <= Z.of_nat (length scratch) -> (33 <= fuel)%nat ->
  exists reduced offsets,
    reduce out_of_range fuel N scratch = Ok (reduced, offsets) /\
    length reduced = length scratch /\
    forall j : nat, N / 2 <= Z.of_nat j -> reduced !! j = scratch !! j.
Proof.
  intros HN Hlen Hfuel. do 2 eexists.
  split; [apply reduce_spec; assumption | ].
  split; [apply length_tree | ].
  intros j Hj. apply tree_upper with (b := 2 * (N / 2)); [ | lia].
  apply chain_descending. lia.
Qed.

Lemma loop_keeps_upper_half_witness :
  exists reduced offsets,
    reduce zeroing 40 6 [5; 4; 1; 6; 7; 8; 9] = Ok (reduced, offsets) /\
    length reduced = length [5; 4; 1; 6; 7; 8; 9] /\
    forall j : nat, 6 / 2 <= Z.of_nat j -> reduced !! j = [5; 4; 1; 6; 7; 8; 9] !! j.
Proof.
  apply (loop_keeps_upper_half zeroing 40 6 [5; 4; 1; 6; 7; 8; 9]); simpl; lia.
Defined.

(** ** The slots the loop ignores *)

Lemma tree_agree (out_of_range : float -> Z) (offs : list Z) (b : Z)
    (s1 s2 : list Z) :
  1 <= b -> descending b offs ->
  (forall j, j ∈ folded offs ->
     (j < length s1)%nat /\ (j < length s2)%nat /\ s1 !!! j = s2 !!! j) ->
  tree out_of_range offs s1 !!! 0%nat = tree out_of_range offs s2 !!! 0%nat.
Proof.
  revert b s1 s2. induction offs as [ | o offs IH]; intros b s1 s2 Hb Hd Hagree.
  - cbn. apply Hagree, list_elem_of_here.
  - destruct Hd as (Ho & Hob & Hd). cbn [tree foldl].
    fold (tree out_of_range offs (round_result out_of_range o s1)).
    fold (tree out_of_range offs (round_result out_of_range o s2)).
    cbn [folded foldr] in Hagree. fold (folded offs) in Hagree.
    apply (IH o); [lia | assumption | ].
    intros j Hj. rewrite !length_round_result.
    pose proof (folded_bound offs o j ltac:(lia) Hd Hj) as Hjo.
    destruct (Hagree j) as (Hl1 & Hl2 & Hj12); [apply elem_of_app; now left | ].
    destruct (Hagree (j + Z.to_nat o)%nat) as (_ & _ & Hjo12).
    { apply elem_of_app. right. apply list_elem_of_fmap. now exists j. }
    split; [assumption | split; [assumption | ] ].
    rewrite !lookup_total_round_result by assumption.
    destruct (Z.ltb_spec (Z.of_nat j) o); [ | lia].
    now rewrite Hj12, Hjo12.
Qed.

Lemma length_folded (offs : list Z) :
  Z.of_nat (length (folded offs)) = 2 ^ Z.of_nat (length offs).
Proof.
  induction offs as [ | o offs IH]; [reflexivity | ].
  cbn [folded foldr length]. fold (folded offs).
  rewrite length_app, length_fmap, Nat2Z.inj_add, IH.
  rewrite Nat2Z.inj_succ, Z.pow_succ_r by lia. lia.
Qed.

Lemma length_halvings (N : Z) : length (halvings N) = Z.to_nat (Z.log2 N).
Proof. unfold halvings. now rewrite length_fmap, length_seqZ. Qed.

(** X3. Slot 0 after the loop depends on the slots that the halving
    offsets reach from it and on no other: two [scratch] arrays that agree
    on these slots end with the same [scratch[0]], on every platform.
    When [N] is not a power of two, at least one of the [N] work-items of
    the group owns a slot that is not among them, so that its accumulator
    never reaches [output]. *)
Theorem loop_ignores_unfolded_slots (out_of_range : float -> Z) (fuel : nat)
    (N : Z) (s1 s2 : list Z) :
  1 <= N <= 2 ^ 31 -> N <= Z.of_nat (length s1) -> N <= Z.of_nat (length s2) ->
  (33 <= fuel)%nat ->
  (forall j, j ∈ folded (halvings N) -> s1 !! j = s2 !! j) ->
  (exists r1 r2 offsets,
     reduce out_of_range fuel N s1 = Ok (r1, offsets) /\
     reduce out_of_range fuel N s2 = Ok (r2, offsets) /\
     r1 !! 0%nat = r2 !! 0%nat) /\
  ((forall k, N <> 2 ^ k) ->
   exists j : nat, Z.of_nat j < N /\ j ∉ folded (halvings N)).
Proof.
  intros HN Hl1 Hl2 Hfuel Hagree. split.
  - do 3 eexists. split; [apply reduce_spec; assumption | ].
    split; [apply reduce_spec; assumption | ].
    rewrite !list_lookup_lookup_total_lt by (rewrite length_tree; lia). f_equal.
    apply tree_agree with (b := N); [lia | | ].
    + apply chain_descending. apply Z.mul_div_le; lia.
    + intros j Hj.
      pose proof (folded_below_group fuel N HN Hfuel j Hj) as HjN.
      rewrite chain_halvings in Hj by lia.
      split; [lia | split; [lia | ] ].
      specialize (Hagree j Hj).
      rewrite !list_lookup_total_alt, Hagree. reflexivity.
  - intros Hnot.
    destruct (decide (Forall (fun j => j ∈ folded (halvings N)) (seq 0 (Z.to_nat N))))
      as [Hall | Hsome].
    + exfalso. rewrite Forall_forall in Hall.
      pose proof (submseteq_length _ _
                    (NoDup_submseteq _ _ (NoDup_seq 0 (Z.to_nat N)) Hall)) as Hle.
      rewrite length_seq in Hle.
      pose proof (length_folded (halvings N)) as Hlen.
      rewrite length_halvings, Z2Nat.id in Hlen by apply Z.log2_nonneg.
      pose proof (Z.log2_spec N ltac:(lia)) as [Hlo _].
      assert (N <> 2 ^ Z.log2 N) by apply Hnot. lia.
    + apply not_Forall_Exists in Hsome; [ | intros j; apply _].
      apply Exists_exists in Hsome as (j & Hj%elem_of_seq & Hnin).
      exists j. split; [lia | exact Hnin].
Qed.

Lemma loop_ignores_unfolded_slots_witness :
  (exists r1 r2 offsets,
     reduce zeroing 40 6 [5; 4; 1; 6; 7; 8] = Ok (r1, offsets) /\
     reduce zeroing 40 6 [5; 4; 0; 6; 7; 2] = Ok (r2, offsets) /\
     r1 !! 0%nat = r2 !! 0%nat) /\
  ((forall k, 6 <> 2 ^ k) ->
   exists j : nat, Z.of_nat j < 6 /\ j ∉ folded (halvings 6)).
Proof.
  apply (loop_ignores_unfolded_slots zeroing 40 6 [5; 4; 1; 6; 7; 8] [5; 4; 0; 6; 7; 2]);
    simpl; try lia.
  intros j Hj. vm_compute in Hj.
  repeat (apply elem_of_cons in Hj as [-> | Hj]; [reflexivity | ]).
  now apply not_elem_of_nil in Hj.
Defined.

(** ** What a launch leaves untouched *)

(** X4. A launch that fits its arguments writes one cell of [output] per
    group and nothing else: [output] keeps its length and its cells from
    index [G] on, and every group leaves a [scratch] of the length it was
    given, with the cells from index [N] on as they were. *)
Theorem launch_frame (out_of_range : float -> Z) (fuel : nat)
    (buffer mask scratch : list Z) (L : Z) (output : list Z) (G N : Z) :
  1 <= N -> 0 <= G -> G * N <= 2 ^ 31 -> G * N + L <= 2 ^ 31 ->
  L <= Z.of_nat (length buffer) -> N <= Z.of_nat (length scratch) ->
  G <= Z.of_nat (length output) ->
  (Z.to_nat L < fuel)%nat -> (33 <= fuel)%nat ->
  exists out groups,
    pir out_of_range fuel buffer mask scratch L output G N = Ok (out, groups) /\
    length out = length output /\
    (forall j : nat, G <= Z.of_nat j -> out !! j = output !! j) /\
    length groups = Z.to_nat G /\
    (forall r, r ∈ groups ->
       length r = length scratch /\
       forall j : nat, N <= Z.of_nat j -> r !! j = scratch !! j).
Proof.
  intros HN HG Hids Hwrap Hbuf Hscr Hout Hfuel Hfuel'. do 2 eexists.
  split; [apply pir_spec; assumption | ].
  split; [ | split; [ | split] ].
  - rewrite length_app, length_fmap, length_seqZ, length_drop. lia.
  - intros j Hj.
    rewrite lookup_app_r by (rewrite length_fmap, length_seqZ; lia).
    rewrite length_fmap, length_seqZ, lookup_drop. f_equal. lia.
  - now rewrite length_fmap, length_seqZ.
  - intros r (grp & -> & Hgrp%elem_of_seqZ)%list_elem_of_fmap. split.
    + apply length_reduced_of; assumption.
    + intros j Hj. unfold reduced_of, rounds_of.
      rewrite (tree_upper out_of_range _ (2 * (N / 2)))
        by (try apply chain_descending; pose proof (Z.mul_div_le N 2); lia).
      unfold stored_of.
      rewrite lookup_app_r by (rewrite length_fmap, length_accs_of; lia).
      rewrite length_fmap, length_accs_of, lookup_drop. f_equal. lia.
Qed.

Lemma launch_frame_witness :
  exists out groups,
    pir zeroing 40 [5; 3; 8; 1; 9; 2] [] [0; 0; 7] 6 [4; 4; 6] 2 2 = Ok (out, groups) /\
    length out = length [4; 4; 6] /\
    (forall j : nat, 2 <= Z.of_nat j -> out !! j = [4; 4; 6] !! j) /\
    length groups = Z.to_nat 2 /\
    (forall r, r ∈ groups ->
       length r = length [0; 0; 7] /\
       forall j : nat, 2 <= Z.of_nat j -> r !! j = [0; 0; 7] !! j).
Proof.
  apply (launch_frame zeroing 40 [5; 3; 8; 1; 9; 2] [] [0; 0; 7] 6 [4; 4; 6] 2 2);
    simpl; lia.
Defined.

(** ** The conversions between [ulong] and [float] *)

(** X5. Below 2^24 the two implicit conversions of the kernel lose
    nothing: a cell converted to [float] and back is the cell, the
    comparison of two converted cells is the comparison of the cells, and
    the value a work-item stores in a round is the smaller of the two
    cells it read, whatever the platform does out of range. *)
Theorem conversions_exact_below_2_24 (out_of_range : float -> Z) (a b : Z) :
  0 <= a < 2 ^ 24 -> 0 <= b < 2 ^ 24 ->
  float_to_ulong out_of_range (ulong_to_float a) = a /\
  float_lt (ulong_to_float a) (ulong_to_float b) = (a <? b) /\
  fold_cells out_of_range a b = Z.min a b.
Proof.
  intros Ha Hb. split; [now apply float_to_ulong_small | ].
  split; [now apply float_lt_small | ].
  apply fold_cells_good; now left.
Qed.

Lemma conversions_exact_below_2_24_witness :
  float_to_ulong zeroing (ulong_to_float 16777215) = 16777215 /\
  float_lt (ulong_to_float 16777215) (ulong_to_float 7) = (16777215 <? 7) /\
  fold_cells zeroing 16777215 7 = Z.min 16777215 7.
Proof. apply (conversions_exact_below_2_24 zeroing 16777215 7); lia. Defined.

Lemma scan_images (fuel : nat) (buffer buffer' : list Z) (L W x : Z)
    (acc : float) (vis : list Z) :
  ulong_to_float <$> buffer = ulong_to_float <$> buffer' ->
  scan fuel (read buffer) L W x acc vis = scan fuel (read buffer') L W x acc vis.
Proof.
  intros Himg. revert x acc vis.
  induction fuel as [ | fuel IH]; intros x acc vis; cbn [scan]; [reflexivity | ].
  destruct (x <? L); [ | reflexivity]. unfold read.
  destruct (0 <=? x); [ | reflexivity].
  pose proof (f_equal (fun l => l !! Z.to_nat x) Himg) as Hx. cbn beta in Hx.
  rewrite !list_lookup_fmap in Hx.
  destruct (buffer !! Z.to_nat x) as [v | ], (buffer' !! Z.to_nat x) as [v' | ];
    cbn in Hx; try discriminate; [ | reflexivity].
  injection Hx as Hx. cbn [mbind outcome_bind]. rewrite Hx. apply IH.
Qed.

(** X6. The kernel sees a cell of [buffer] only through its conversion
    to [float]: two input vectors whose cells have the same [float] images
    give the same result, in every launch and on every platform. *)
Theorem kernel_sees_float_images (out_of_range : float -> Z) (fuel : nat)
    (buffer buffer' mask scratch : list Z) (length : Z) (output : list Z)
    (num_groups local_size : Z) :
  ulong_to_float <$> buffer = ulong_to_float <$> buffer' ->
  pir out_of_range fuel buffer mask scratch length output num_groups local_size
  = pir out_of_range fuel buffer' mask scratch length output num_groups local_size.
Proof.
  intros Himg. unfold pir. apply foldM_ext. intros grp st _.
  unfold pir_group, run_group.
  rewrite (mapM_ext _ (fun local_id =>
             scan_item fuel (read buffer') length (num_groups * local_size)
               (grp * local_size + local_id)));
    [reflexivity | ].
  intros li _. unfold scan_item. now apply scan_images.
Qed.

Lemma kernel_sees_float_images_witness :
  pir saturating 40 [16777217; 33554434; 9] [] [0; 0] 3 [0] 1 2
  = pir saturating 40 [16777216; 33554432; 9] [] [0; 0] 3 [0] 1 2.
Proof.
  apply (kernel_sees_float_images saturating 40 [16777217; 33554434; 9]
           [16777216; 33554432; 9] [] [0; 0] 3 [0] 1 2).
  reflexivity.
Defined.

(** ** Launches the scan does not survive *)

Lemma sint32_period (x W : Z) : W mod 2 ^ 32 = 0 -> sint32 (x + W) = sint32 x.
Proof.
  intros HW. unfold sint32. f_equal.
  rewrite (Z.div_mod W (2 ^ 32)) at 1 by lia. rewrite HW, Z.add_0_r.
  replace (x + 2 ^ 32 * (W / 2 ^ 32) + 2 ^ 31)
    with (x + 2 ^ 31 + (W / 2 ^ 32) * 2 ^ 32) by lia.
  apply Z_mod_plus_full.
Qed.

Lemma scan_spins (fuel : nat) (buffer : list Z) (L W x : Z) (acc : float)
    (vis : list Z) :
  W mod 2 ^ 32 = 0 -> 0 <= x < 2 ^ 31 -> x < L ->
  x < Z.of_nat (length buffer) ->
  scan fuel (read buffer) L W x acc vis = OutOfFuel.
Proof.
  intros HW Hx HL Hbuf. revert acc vis.
  induction fuel as [ | fuel IH]; intros acc vis; cbn [scan]; [reflexivity | ].
  destruct (Z.ltb_spec x L); [ | lia].
  rewrite read_readable by lia. cbn [mbind outcome_bind].
  rewrite sint32_period, sint32_id by (assumption || lia). apply IH.
Qed.

(** X7. In a launch whose global size is a multiple of 2^32 the addition
    to [global_index] leaves the [int] index where it was: a work-item
    that enters the loop on a cell of the buffer never leaves it, and no
    number of steps gives its scan a result. *)
Theorem scan_never_ends (buffer : list Z) (L W g : Z) :
  W mod 2 ^ 32 = 0 -> 0 <= g < 2 ^ 31 -> g < L ->
  g < Z.of_nat (length buffer) ->
  forall fuel, scan_item fuel (read buffer) L W g = OutOfFuel.
Proof.
  intros HW Hg HL Hbuf fuel. unfold scan_item. rewrite sint32_id by lia.
  now apply scan_spins.
Qed.

Lemma scan_never_ends_witness :
  scan_item 1000 (read [5; 3]) 2 (2 ^ 32) 1 = OutOfFuel.
Proof.
  apply (scan_never_ends [5; 3] 2 (2 ^ 32) 1); simpl; try lia. reflexivity.
Defined.

Lemma scan_short (buffer : list Z) (W L : Z) (k : nat) :
  1 <= W -> W + L <= 2 ^ 31 ->
  forall (x : Z) (fuel : nat) (acc : float) (vis : list Z),
    0 <= x -> Z.of_nat (length buffer) <= x + Z.of_nat k * W < L ->
    (k < fuel)%nat ->
    exists j,
      Z.of_nat (length buffer) <= j <= x + Z.of_nat k * W /\
      (j - x) mod W = 0 /\
      (j = x \/ j - W < Z.of_nat (length buffer)) /\
      scan fuel (read buffer) L W x acc vis = OutOfBounds j.
Proof.
  intros HW Hwrap.
  assert (Hhere : forall x fuel acc vis,
             0 <= x < L -> Z.of_nat (length buffer) <= x -> (0 < fuel)%nat ->
             scan fuel (read buffer) L W x acc vis = OutOfBounds x).
  { intros x [ | fuel] acc vis Hx Hlen Hfuel; [lia | ]. cbn [scan].
    destruct (Z.ltb_spec x L); [ | lia]. unfold read.
    destruct (Z.leb_spec 0 x); [ | lia].
    now rewrite lookup_ge_None_2 by lia. }
  induction k as [ | k IH]; intros x fuel acc vis Hx Hi Hfuel.
  - exists x. rewrite Z.sub_diag, Z.mod_0_l by lia.
    split; [lia | split; [reflexivity | split; [now left | ] ] ].
    apply Hhere; lia.
  - destruct (Z.le_gt_cases (Z.of_nat (length buffer)) x) as [Hout | Hin].
    + exists x. rewrite Z.sub_diag, Z.mod_0_l by lia.
      split; [nia | split; [reflexivity | split; [now left | ] ] ].
      apply Hhere; nia.
    + destruct fuel as [ | fuel]; [lia | ].
      destruct (IH (x + W) fuel (select_min acc (ulong_to_float (cell_at (read buffer) x)))
                  (vis ++ [x])) as (j & Hj & Hmod & Hfirst & Hscan); [lia | lia | lia | ].
      exists j. split; [lia | ]. split; [ | split].
      * replace (j - x) with (j - (x + W) + 1 * W) by lia.
        now rewrite Z_mod_plus_full.
      * right. destruct Hfirst as [-> | Hfirst]; lia.
      * cbn [scan]. destruct (Z.ltb_spec x L); [ | nia].
        rewrite read_readable by lia. cbn [mbind outcome_bind].
        rewrite sint32_id by nia. exact Hscan.
Qed.

(** X8. A [buffer] shorter than [length] is read out of bounds: the scan
    of a work-item whose indices [g, g + W, ...] below [length] reach an
    index [i] outside the buffer stops with the read at the first of its
    indices that is outside. *)
Theorem short_buffer_faults (fuel : nat) (buffer : list Z) (W L g i : Z) :
  1 <= W -> W + L <= 2 ^ 31 -> 0 <= g <= i -> (i - g) mod W = 0 ->
  Z.of_nat (length buffer) <= i < L -> (Z.to_nat L < fuel)%nat ->
  exists j,
    Z.of_nat (length buffer) <= j <= i /\ (j - g) mod W = 0 /\
    (j = g \/ j - W < Z.of_nat (length buffer)) /\
    scan_item fuel (read buffer) L W g = OutOfBounds j.
Proof.
  intros HW Hwrap Hg Hmod Hi Hfuel. unfold scan_item. rewrite sint32_id by lia.
  assert (Hk : i = g + Z.of_nat (Z.to_nat ((i - g) / W)) * W).
  { pose proof (Z.div_mod (i - g) W ltac:(lia)) as Hdiv.
    rewrite Z2Nat.id by (apply Z.div_pos; lia). lia. }
  assert (0 <= (i - g) / W <= i - g).
  { split; [apply Z.div_pos; lia | ].
    apply Z.div_le_upper_bound; [lia | nia]. }
  destruct (scan_short buffer W L (Z.to_nat ((i - g) / W)) HW Hwrap g fuel
              INFINITY []) as (j & Hj & Hrest); [lia | lia | lia | ].
  exists j. split; [lia | exact Hrest].
Qed.

Lemma short_buffer_faults_witness :
  exists j,
    Z.of_nat (length [5; 3; 8]) <= j <= 6 /\ (j - 0) mod 2 = 0 /\
    (j = 0 \/ j - 2 < Z.of_nat (length [5; 3; 8])) /\
    scan_item 40 (read [5; 3; 8]) 7 2 0 = OutOfBounds j.
Proof.
  apply (short_buffer_faults 40 [5; 3; 8] 2 7 0 6); simpl; try lia. reflexivity.
Defined.

(** ** Objects too small for the launch *)


Section Faults.
Variable out_of_range : float -> Z.
Variable fuel : nat.
Variables buffer mask scratch : list Z.
Variables L G N : Z.
Hypothesis N_pos : 1 <= N.
Hypothesis G_nonneg : 0 <= G.
Hypothesis ids_fit : G * N <= 2 ^ 31.
Hypothesis no_wrap : G * N + L <= 2 ^ 31.
Hypothesis buffer_size : L <= Z.of_nat (length buffer).
Hypothesis scan_fuel : (Z.to_nat L < fuel)%nat.



Hypothesis scratch_size : N <= Z.of_nat (length scratch).
Hypothesis loop_fuel : (33 <= fuel)%nat.



End Faults.





(** ** One group at a time *)

Lemma item_cells_agree (buffer buffer' : list Z) (L G N grp li : Z) :
  1 <= N -> 1 <= G -> 0 <= grp < G -> 0 <= li < N ->
  (forall i, 0 <= i < L -> (i mod (G * N)) / N = grp ->
     buffer !! Z.to_nat i = buffer' !! Z.to_nat i) ->
  item_cells buffer L G N (grp * N + li) = item_cells buffer' L G N (grp * N + li).
Proof.
  intros HN HG Hgrp Hli Hagree. unfold item_cells. apply list_fmap_ext.
  intros n i Hi. apply list_elem_of_lookup_2 in Hi.
  assert (HW : 1 <= G * N) by nia.
  assert (Hg : 0 <= grp * N + li < G * N) by nia.
  apply (elem_of_stride (G * N) L HW) in Hi as (k & Hk & -> & Hlt).
  unfold cell_at, read.
  rewrite Hagree; [reflexivity | nia | ].
  rewrite Z_mod_plus_full, Z.mod_small by lia.
  rewrite Z.div_add_l, Z.div_small by lia. lia.
Qed.

(** X11. The cell a group publishes depends on the cells of [buffer] at the
    indices its own work-items visit and on no other: two input vectors
    that agree at every index [i] below [length] with
    [(i mod (G * N)) / N = grp] give group [grp] the same [output] cell
    and the same final [scratch]. *)
Theorem group_depends_on_its_cells (out_of_range : float -> Z) (fuel : nat)
    (buffer buffer' mask scratch : list Z) (L : Z) (output : list Z)
    (G N grp : Z) :
  1 <= N -> G * N <= 2 ^ 31 -> G * N + L <= 2 ^ 31 ->
  L <= Z.of_nat (length buffer) -> L <= Z.of_nat (length buffer') ->
  N <= Z.of_nat (length scratch) -> G <= Z.of_nat (length output) ->
  (Z.to_nat L < fuel)%nat -> (33 <= fuel)%nat ->
  0 <= grp < G ->
  (forall i, 0 <= i < L -> (i mod (G * N)) / N = grp ->
     buffer !! Z.to_nat i = buffer' !! Z.to_nat i) ->
  exists out groups out' groups',
    pir out_of_range fuel buffer mask scratch L output G N = Ok (out, groups) /\
    pir out_of_range fuel buffer' mask scratch L output G N = Ok (out', groups') /\
    out !! Z.to_nat grp = out' !! Z.to_nat grp /\
    groups !! Z.to_nat grp = groups' !! Z.to_nat grp.
Proof.
  intros HN Hids Hwrap Hbuf Hbuf' Hscr Hout Hfuel Hfuel' Hgrp Hagree.
  do 4 eexists.
  split; [apply pir_spec; first [assumption | lia] | ].
  split; [apply pir_spec; first [assumption | lia] | ].
  assert (Hred : reduced_of out_of_range fuel buffer scratch L G N grp
                 = reduced_of out_of_range fuel buffer' scratch L G N grp).
  { unfold reduced_of, stored_of, accs_of. do 3 f_equal.
    apply list_fmap_ext. intros n li Hli%list_elem_of_lookup_2%elem_of_seqZ.
    f_equal. apply item_cells_agree; first [assumption | lia]. }
  split.
  - rewrite !lookup_app_l by (rewrite length_fmap, length_seqZ; lia).
    rewrite !list_lookup_fmap. unfold value_of.
    destruct (seqZ 0 G !! Z.to_nat grp) as [g | ] eqn:Hg; [ | reflexivity].
    apply lookup_seqZ in Hg as [-> _]. cbn [fmap option_fmap option_map].
    rewrite Z.add_0_l, Z2Nat.id by lia. now rewrite Hred.
  - rewrite !list_lookup_fmap.
    destruct (seqZ 0 G !! Z.to_nat grp) as [g | ] eqn:Hg; [ | reflexivity].
    apply lookup_seqZ in Hg as [-> _]. cbn [fmap option_fmap option_map].
    rewrite Z.add_0_l, Z2Nat.id by lia. now rewrite Hred.
Qed.

Lemma group_depends_on_its_cells_witness :
  exists out groups out' groups',
    pir zeroing 40 [5; 3; 8; 1; 9; 2] [] [0; 0] 6 [0; 0] 2 2 = Ok (out, groups) /\
    pir zeroing 40 [5; 3; 7; 7; 9; 2] [] [0; 0] 6 [0; 0] 2 2 = Ok (out', groups') /\
    out !! Z.to_nat 0 = out' !! Z.to_nat 0 /\
    groups !! Z.to_nat 0 = groups' !! Z.to_nat 0.
Proof.
  apply (group_depends_on_its_cells zeroing 40 [5; 3; 8; 1; 9; 2] [5; 3; 7; 7; 9; 2]
           [] [0; 0] 6 [0; 0] 2 2 0); simpl; try lia.
  intros i Hi Hmod.
  assert (Hcases : i = 0 \/ i = 1 \/ i = 2 \/ i = 3 \/ i = 4 \/ i = 5) by lia.
  destruct Hcases as [-> | [-> | [-> | [-> | [-> | ->] ] ] ] ];
    first [reflexivity | discriminate Hmod].
Defined.

(** X12. A group whose first global id is at or past [length] has no cell
    to visit, whatever [buffer] holds: all its accumulators keep the seed
    and the cell it publishes is the platform's conversion of positive
    infinity to [ulong], passed through the rounds of the loop. *)
Theorem idle_group_publishes_converted_seed (out_of_range : float -> Z)
    (fuel : nat) (buffer mask scratch : list Z) (L : Z) (output : list Z)
    (G N grp : Z) :
  1 <= N -> G * N <= 2 ^ 31 -> G * N + L <= 2 ^ 31 ->
  L <= Z.of_nat (length buffer) -> N <= Z.of_nat (length scratch) ->
  G <= Z.of_nat (length output) ->
  (Z.to_nat L < fuel)%nat -> (33 <= fuel)%nat ->
  0 <= grp < G -> L <= grp * N ->
  exists out groups,
    pir out_of_range fuel buffer mask scratch L output G N = Ok (out, groups) /\
    out !! Z.to_nat grp = Some (idle_cell out_of_range N).
Proof.
  intros HN Hids Hwrap Hbuf Hscr Hout Hfuel Hfuel' Hgrp Hidle.
  do 2 eexists. split; [apply pir_spec; first [assumption | lia] | ].
  rewrite lookup_app_l by (rewrite length_fmap, length_seqZ; lia).
  rewrite list_lookup_fmap, lookup_seqZ_lt by lia.
  cbn [fmap option_fmap option_map]. f_equal.
  rewrite Z.add_0_l, Z2Nat.id by lia.
  assert (HN31 : N <= 2 ^ 31) by nia.
  unfold value_of, reduced_of, rounds_of, idle_cell.
  rewrite (tree_constant out_of_range _ N _ (float_to_ulong out_of_range INFINITY)).
  - rewrite chain_halvings by lia. now rewrite length_halvings.
  - lia.
  - apply chain_descending. apply Z.mul_div_le; lia.
  - rewrite length_stored_of with (fuel := fuel); first [assumption | lia].
  - intros j Hj. apply list_lookup_total_correct. unfold stored_of.
    rewrite lookup_app_l by (rewrite length_fmap, length_accs_of; lia).
    unfold accs_of. rewrite <- list_fmap_compose, list_lookup_fmap.
    rewrite lookup_seqZ_lt by lia. cbn [fmap option_fmap option_map compose].
    unfold item_cells. rewrite stride_nil; [reflexivity | nia | nia].
Qed.

Lemma idle_group_publishes_converted_seed_witness :
  exists out groups,
    pir zeroing 40 [5; 3] [] [0; 0] 2 [7; 7] 2 2 = Ok (out, groups) /\
    out !! Z.to_nat 1 = Some (idle_cell zeroing 2).
Proof.
  apply (idle_group_publishes_converted_seed zeroing 40 [5; 3] [] [0; 0] 2 [7; 7]
           2 2 1); simpl; lia.
Defined.

(** ** The accumulator over cells of any size *)

Lemma binary_round_aux_ordered (m e : Z) :
  0 <= m -> ordered (binary_round_aux prec emax false m e loc_Exact).
Proof.
  intros Hm. unfold binary_round_aux.
  pose proof (shr_fexp_bounds m e loc_Exact Hm) as [Hm1 _].
  destruct (shr_fexp prec emax m e loc_Exact) as [mrs1 e1]. cbn [fst snd] in *.
  pose proof (round_nearest_even_bounds (shr_m mrs1) (loc_of_shr_record mrs1)) as Hr.
  set (m1 := round_nearest_even (shr_m mrs1) (loc_of_shr_record mrs1)) in *.
  pose proof (shr_fexp_bounds m1 e1 loc_Exact ltac:(lia)) as [Hm2 _].
  destruct (shr_fexp prec emax m1 e1 loc_Exact) as [mrs2 e2]. cbn [fst snd] in *.
  destruct (shr_m mrs2) as [ | p | p]; [exact I | | lia].
  destruct (e2 <=? emax - prec); exact I.
Qed.

Lemma ulong_to_float_ordered (z : Z) : 0 <= z -> ordered (ulong_to_float z).
Proof.
  intros Hz. destruct z as [ | p | p]; [exact I | | lia].
  unfold ulong_to_float, binary_normalize, binary_round.
  destruct (shl_align p 0 (fexp prec emax (Z.pos (digits2_pos p) + 0))) as [mz ez].
  apply binary_round_aux_ordered. lia.
Qed.

Lemma float_lt_asym (a b : float) :
  ordered a -> ordered b -> float_lt a b = true -> float_lt b a = false.
Proof.
  unfold float_lt, SFltb.
  destruct a as [ [ | ] | [ | ] | | [ | ] m1 e1], b as [ [ | ] | [ | ] | | [ | ] m2 e2];
    cbn; try contradiction; try discriminate; try reflexivity.
  intros _ _. rewrite (Z.compare_antisym e1 e2).
  change (Pos.compare_cont Eq m1 m2) with (Pos.compare m1 m2).
  change (Pos.compare_cont Eq m2 m1) with (Pos.compare m2 m1).
  rewrite (Pos.compare_antisym m1 m2).
  destruct (e1 ?= e2); cbn; try discriminate; try reflexivity.
  destruct (m1 ?= m2)%positive; cbn; try discriminate; reflexivity.
Qed.

Lemma float_lt_irrefl (a : float) : ordered a -> float_lt a a = false.
Proof.
  intros Ha. destruct (float_lt a a) eqn:Hlt; [ | reflexivity].
  now rewrite (float_lt_asym a a Ha Ha Hlt) in Hlt.
Qed.

Lemma float_lt_neg_trans (x a e : float) :
  ordered x -> ordered a -> ordered e ->
  float_lt x a = false -> float_lt a e = false -> float_lt x e = false.
Proof.
  unfold float_lt, SFltb.
  destruct x as [ [ | ] | [ | ] | | [ | ] m0 e0], a as [ [ | ] | [ | ] | | [ | ] m1 e1],
    e as [ [ | ] | [ | ] | | [ | ] m2 e2];
    cbn; try contradiction; try discriminate; try reflexivity.
  intros _ _ _.
  change (Pos.compare_cont Eq m0 m1) with (Pos.compare m0 m1).
  change (Pos.compare_cont Eq m1 m2) with (Pos.compare m1 m2).
  change (Pos.compare_cont Eq m0 m2) with (Pos.compare m0 m2).
  destruct (Z.compare_spec e0 e1), (Z.compare_spec e1 e2), (Z.compare_spec e0 e2);
    try discriminate; try reflexivity; try lia.
  destruct (Pos.compare_spec m0 m1), (Pos.compare_spec m1 m2),
    (Pos.compare_spec m0 m2);
    try discriminate; try reflexivity; try lia.
Qed.

Lemma select_min_ordered (a b : float) :
  ordered a -> ordered b ->
  ordered (select_min a b) /\
  (select_min a b = a \/ select_min a b = b) /\
  float_lt a (select_min a b) = false /\
  float_lt b (select_min a b) = false.
Proof.
  intros Ha Hb. unfold select_min. destruct (float_lt a b) eqn:Hlt.
  - split; [assumption | split; [now left | split] ].
    + now apply float_lt_irrefl.
    + now apply float_lt_asym.
  - split; [assumption | split; [now right | split] ].
    + assumption.
    + now apply float_lt_irrefl.
Qed.

Lemma fold_elements_minimum (cells : list Z) (acc : float) :
  ordered acc -> Forall (fun c => 0 <= c < 2 ^ 64) cells ->
  ordered (fold_elements acc cells) /\
  (fold_elements acc cells = acc \/
   exists c, c ∈ cells /\ fold_elements acc cells = ulong_to_float c) /\
  float_lt acc (fold_elements acc cells) = false /\
  (forall c, c ∈ cells -> float_lt (ulong_to_float c) (fold_elements acc cells) = false).
Proof.
  revert acc. induction cells as [ | c cells IH]; intros acc Hacc Hcells.
  - cbn. split; [assumption | split; [now left | split] ].
    + now apply float_lt_irrefl.
    + intros c Hc. now apply not_elem_of_nil in Hc.
  - apply Forall_cons in Hcells as [Hc Hcells].
    pose proof (ulong_to_float_ordered c ltac:(lia)) as Himg.
    destruct (select_min_ordered acc (ulong_to_float c) Hacc Himg)
      as (Hord & Hsel & Hacc1 & Hc1).
    destruct (IH (select_min acc (ulong_to_float c)) Hord Hcells)
      as (Hres & Hfrom & Hlow & Hall).
    unfold fold_elements in *. cbn [foldl].
    set (r := foldl _ (select_min acc (ulong_to_float c)) cells) in *.
    split; [assumption | split; [ | split] ].
    + destruct Hfrom as [-> | (c' & Hc' & ->)].
      * destruct Hsel as [-> | ->]; [now left | right].
        exists c. split; [apply list_elem_of_here | reflexivity].
      * right. exists c'. split; [now apply list_elem_of_further | reflexivity].
    + now apply (float_lt_neg_trans acc (select_min acc (ulong_to_float c)) r).
    + intros c' [-> | Hc']%elem_of_cons; [ | now apply Hall].
      now apply (float_lt_neg_trans (ulong_to_float c)
                   (select_min acc (ulong_to_float c)) r).
Qed.

(** X13. On cells of any [ulong] value, what a work-item holds after its
    loop is positive infinity if it visited no cell and otherwise the
    [float] image of one of the cells it visited, which is a finite number
    and no NaN, and no visited cell has an image that compares less than
    it. *)
Theorem accumulator_is_float_minimum (fuel : nat) (buffer : list Z) (W L g : Z) :
  1 <= W -> W + L <= 2 ^ 31 -> 0 <= g < 2 ^ 31 ->
  L <= Z.of_nat (length buffer) ->
  Forall (fun c => 0 <= c < 2 ^ 64) buffer ->
  (Z.to_nat L < fuel)%nat ->
  exists acc visited,
    scan_item fuel (read buffer) L W g = Ok (acc, visited) /\
    (visited = [] -> acc = INFINITY) /\
    (visited <> [] ->
       (exists i c, i ∈ visited /\ buffer !! Z.to_nat i = Some c /\
                    acc = ulong_to_float c) /\
       acc <> INFINITY /\ acc <> S754_nan) /\
    (forall i c, i ∈ visited -> buffer !! Z.to_nat i = Some c ->
       float_lt (ulong_to_float c) acc = false).
Proof.
  intros HW Hwrap Hg Hbuf Hcells Hfuel. do 2 eexists.
  split.
  { apply scan_item_spec; try lia. intros i Hi. apply read_readable. lia. }
  set (cells := cell_at (read buffer) <$> stride g W L).
  assert (Hin : forall i, i ∈ stride g W L ->
                  0 <= i /\ buffer !! Z.to_nat i = Some (cell_at (read buffer) i)).
  { intros i (k & Hk & -> & Hlt)%elem_of_stride; [ | lia].
    split; [nia | ].
    destruct (lookup_lt_is_Some_2 buffer (Z.to_nat (g + k * W))) as [v Hv]; [nia | ].
    rewrite Hv. f_equal. symmetry. apply cell_at_lookup; [nia | exact Hv]. }
  assert (Hrange : Forall (fun c => 0 <= c < 2 ^ 64) cells).
  { apply Forall_forall. intros c (i & -> & Hi)%list_elem_of_fmap.
    destruct (Hin i Hi) as [_ Hlook]. rewrite Forall_forall in Hcells.
    apply Hcells. eapply list_elem_of_lookup_2, Hlook. }
  destruct (fold_elements_minimum cells INFINITY I Hrange)
    as (Hord & Hfrom & _ & Hall).
  split; [ | split].
  - intros Hnil. subst cells. now rewrite Hnil.
  - intros Hne.
    assert (Himg : exists i c, i ∈ stride g W L /\ buffer !! Z.to_nat i = Some c /\
                     fold_elements INFINITY cells = ulong_to_float c).
    { destruct Hfrom as [Hseed | (c & (i & -> & Hi)%list_elem_of_fmap & Hc)].
      - subst cells. destruct (stride g W L) as [ | i rest]; [congruence | ].
        exfalso. cbn [fmap list_fmap] in *.
        unfold fold_elements in Hseed. cbn [foldl] in Hseed.
        rewrite select_min_INFINITY in Hseed.
        apply Forall_cons in Hrange as [Hi Hrange].
        destruct (fold_elements_minimum (cell_at (read buffer) <$> rest)
                    (ulong_to_float (cell_at (read buffer) i))
                    (ulong_to_float_ordered _ (proj1 Hi)) Hrange)
          as (_ & _ & Hlow & _).
        unfold fold_elements in Hlow. rewrite Hseed in Hlow.
        pose proof (ulong_to_float_finite (cell_at (read buffer) i) Hi) as Hfin.
        pose proof (ulong_to_float_ordered (cell_at (read buffer) i) ltac:(lia))
          as Hshape.
        destruct (ulong_to_float (cell_at (read buffer) i)) as [ [ | ] | [ | ] | | [ | ] m e];
          cbn in Hshape, Hlow; try contradiction; discriminate.
      - exists i, (cell_at (read buffer) i).
        split; [exact Hi | split; [apply Hin, Hi | exact Hc] ]. }
    split; [exact Himg | ].
    destruct Himg as (i & c & Hi & Hlook & ->).
    assert (Hc : 0 <= c < 2 ^ 64).
    { rewrite Forall_forall in Hcells. apply Hcells.
      eapply list_elem_of_lookup_2, Hlook. }
    split; [now apply ulong_to_float_finite | ].
    pose proof (ulong_to_float_ordered c ltac:(lia)) as Hshape.
    intros Hnan. now rewrite Hnan in Hshape.
  - intros i c Hi Hlook. apply Hall. apply list_elem_of_fmap. exists i.
    split; [ | exact Hi].
    destruct (Hin i Hi) as [_ Hlook']. congruence.
Qed.

Lemma accumulator_is_float_minimum_witness :
  exists acc visited,
    scan_item 40 (read [18446744073709551615; 16777217; 33554433]) 3 2 0
    = Ok (acc, visited) /\
    (visited = [] -> acc = INFINITY) /\
    (visited <> [] ->
       (exists i c, i ∈ visited /\
                    [18446744073709551615; 16777217; 33554433] !! Z.to_nat i = Some c /\
                    acc = ulong_to_float c) /\
       acc <> INFINITY /\ acc <> S754_nan) /\
    (forall i c, i ∈ visited ->
       [18446744073709551615; 16777217; 33554433] !! Z.to_nat i = Some c ->
       float_lt (ulong_to_float c) acc = false).
Proof.
  apply (accumulator_is_float_minimum 40
           [18446744073709551615; 16777217; 33554433] 2 3 0); simpl; try lia.
  repeat constructor; lia.
Defined.

(** ** Two passes *)

Lemma value_of_small (out_of_range : float -> Z) (fuel : nat)
    (buffer scratch : list Z) (L G N k grp : Z) :
  0 <= k -> N = 2 ^ k -> G * N + L <= 2 ^ 31 ->
  L <= Z.of_nat (length buffer) -> N <= Z.of_nat (length scratch) ->
  (Z.to_nat L < fuel)%nat -> (33 <= fuel)%nat ->
  Forall (fun c => 0 <= c < 2 ^ 24) buffer -> G * N <= L ->
  0 <= grp < G ->
  0 <= value_of out_of_range fuel buffer scratch L G N grp < 2 ^ 24.
Proof.
  intros Hk HN Hwrap Hbuf Hscr Hfuel Hfuel' Hsmall Hbusy Hgrp.
  assert (HNpos : 1 <= N) by (subst N; pose proof (Z.pow_pos_nonneg 2 k); lia).
  assert (HW : 1 <= G * N) by nia.
  assert (Hitem : forall li, 0 <= li < N ->
            0 <= cells_min (item_cells buffer L G N (grp * N + li)) < 2 ^ 24).
  { intros li Hli. apply cells_min_small.
    - apply item_cells_small with (fuel := fuel); first [assumption | lia | nia].
    - apply item_cells_nonempty; nia. }
  rewrite (value_of_power_of_two out_of_range fuel buffer scratch L G N)
    with (k := k); first [assumption | lia | (left; assumption) | idtac].
  rewrite take_stored_of with (fuel := fuel);
    first [assumption | lia | (left; assumption) | idtac].
  set (mins := (fun li => cells_min (item_cells buffer L G N (grp * N + li)))
                 <$> seqZ 0 N).
  assert (H0 : cells_min (item_cells buffer L G N (grp * N + 0)) ∈ mins).
  { apply list_elem_of_fmap. exists 0. split; [reflexivity | ].
    apply elem_of_seqZ. lia. }
  pose proof (cells_min_lower mins _ H0) as Hle.
  pose proof (Hitem 0 ltac:(lia)) as H0r.
  split; [ | lia].
  destruct (cells_min_attained mins) as [-> | Hin]; [unfold ULONG_MAX; lia | ].
  apply list_elem_of_fmap in Hin as (li & -> & Hli%elem_of_seqZ).
  apply Hitem. lia.
Qed.

(** X14. The kernel composes with itself: when the [G] cells a first
    launch publishes are given as the input vector to a second launch of
    one group, the single cell the second launch publishes is the least
    cell of the first input vector.  This holds for cells below 2^24,
    power-of-two group sizes and launches in which every work-item of
    either pass has a cell to visit. *)
Theorem two_passes_give_the_minimum (out_of_range : float -> Z) (fuel : nat)
    (buffer mask scratch scratch2 output output2 : list Z) (L G N k N2 k2 : Z) :
  0 <= k -> N = 2 ^ k -> 1 <= G -> G * N + L <= 2 ^ 31 ->
  Z.of_nat (length buffer) = L ->
  Forall (fun c => 0 <= c < 2 ^ 24) buffer -> G * N <= L ->
  N <= Z.of_nat (length scratch) -> Z.of_nat (length output) = G ->
  0 <= k2 -> N2 = 2 ^ k2 -> N2 <= G -> N2 <= Z.of_nat (length scratch2) ->
  1 <= Z.of_nat (length output2) ->
  (Z.to_nat L < fuel)%nat -> (33 <= fuel)%nat ->
  exists out groups out2 groups2 m,
    pir out_of_range fuel buffer mask scratch L output G N = Ok (out, groups) /\
    pir out_of_range fuel out mask scratch2 G output2 1 N2 = Ok (out2, groups2) /\
    out2 !! 0%nat = Some m /\
    is_minimum m buffer.
Proof.
  intros Hk HN HG Hwrap Hlen Hsmall Hbusy Hscr Hout Hk2 HN2 Hbusy2 Hscr2 Hout2
    Hfuel Hfuel'.
  assert (HNpos : 1 <= N) by (subst N; pose proof (Z.pow_pos_nonneg 2 k); lia).
  assert (HN2pos : 1 <= N2) by (subst N2; pose proof (Z.pow_pos_nonneg 2 k2); lia).
  assert (HGN : G <= G * N) by nia.
  assert (HGL : G <= L) by lia.
  set (vals := value_of out_of_range fuel buffer scratch L G N <$> seqZ 0 G).
  assert (Hvlen : Z.of_nat (length vals) = G)
    by (subst vals; rewrite length_fmap, length_seqZ; lia).
  assert (Hvsmall : Forall (fun c => 0 <= c < 2 ^ 24) vals).
  { apply Forall_forall. intros v (grp & -> & Hgrp%elem_of_seqZ)%list_elem_of_fmap.
    apply value_of_small with (k := k); first [assumption | lia]. }
  set (v2 := value_of out_of_range fuel vals scratch2 G 1 N2 0).
  exists vals, (reduced_of out_of_range fuel buffer scratch L G N <$> seqZ 0 G).
  exists (v2 :: drop 1 output2),
    (reduced_of out_of_range fuel vals scratch2 G 1 N2 <$> seqZ 0 1).
  exists (cells_min buffer).
  split; [ | split; [ | split] ].
  - rewrite pir_spec by lia. rewrite drop_ge by lia. now rewrite app_nil_r.
  - rewrite pir_spec by lia. reflexivity.
  - cbn [lookup list_lookup]. f_equal.
    assert (Hpub1 : cells_min vals = cells_min buffer).
    { subst vals.
      apply published_minimum with (k := k);
        first [assumption | lia | (left; assumption)]. }
    assert (Hpub2 :
              cells_min (value_of out_of_range fuel vals scratch2 G 1 N2 <$> seqZ 0 1)
              = cells_min vals).
    { apply published_minimum with (k := k2);
        first [assumption | lia | (left; lia)]. }
    change (seqZ 0 1) with [0] in Hpub2. cbn [fmap list_fmap] in Hpub2.
    fold v2 in Hpub2. unfold cells_min at 1 in Hpub2. cbn [foldr] in Hpub2.
    assert (Hv2 : 0 <= v2 < 2 ^ 24).
    { subst v2. apply value_of_small with (k := k2); first [assumption | lia]. }
    unfold ULONG_MAX in Hpub2. lia.
  - assert (Hne : buffer <> []) by (intros ->; cbn in Hlen; lia).
    pose proof (cells_min_small buffer Hsmall Hne) as Hrange.
    split; [ | apply cells_min_lower].
    destruct (cells_min_attained buffer) as [Hmax | Hin]; [ | exact Hin].
    unfold ULONG_MAX in Hmax. lia.
Qed.

Lemma two_passes_give_the_minimum_witness :
  exists out groups out2 groups2 m,
    pir zeroing 40 [5; 3; 8; 1; 9; 2; 7; 4] [] [0; 0] 8 [0; 0] 2 2 = Ok (out, groups) /\
    pir zeroing 40 out [] [0; 0] 2 [0] 1 2 = Ok (out2, groups2) /\
    out2 !! 0%nat = Some m /\
    is_minimum m [5; 3; 8; 1; 9; 2; 7; 4].
Proof.
  apply (two_passes_give_the_minimum zeroing 40 [5; 3; 8; 1; 9; 2; 7; 4] []
           [0; 0] [0; 0] [0; 0] [0] 8 2 2 1 2 1); simpl; try lia.
  repeat constructor; lia.
Defined.

(** ** Groups of any size *)

Lemma stored_of_slot (out_of_range : float -> Z) (fuel : nat)
    (buffer scratch : list Z) (L G N grp : Z) (j : nat) :
  1 <= N -> 0 <= G -> G * N <= 2 ^ 31 -> L <= Z.of_nat (length buffer) ->
  N <= Z.of_nat (length scratch) ->
  (Z.to_nat L < fuel)%nat -> (33 <= fuel)%nat ->
  Forall (fun c => 0 <= c < 2 ^ 24) buffer -> G * N <= L ->
  0 <= grp < G -> Z.of_nat j < N ->
  stored_of out_of_range buffer scratch L G N grp !!! j
  = cells_min (item_cells buffer L G N (grp * N + Z.of_nat j)).
Proof.
  intros HN HG Hids Hbuf Hscr Hfuel Hfuel' Hsmall Hbusy Hgrp Hj.
  apply list_lookup_total_correct.
  rewrite <- (lookup_take_lt _ (Z.to_nat N)) by lia.
  rewrite take_stored_of with (fuel := fuel);
    first [assumption | lia | (left; assumption) | idtac].
  rewrite list_lookup_fmap, lookup_seqZ_lt by lia.
  cbn [fmap option_fmap option_map]. now rewrite Z.add_0_l.
Qed.

(** X15. Whatever the size of the groups, a group publishes one of its
    own cells: for cells below 2^24 and a launch in which every work-item
    has a cell to visit, the cell written to [output[grp]] is the cell of
    [buffer] at an index that a work-item of group [grp] visits, and so it
    is never below the least cell of the input vector. *)
Theorem group_publishes_one_of_its_cells (out_of_range : float -> Z)
    (fuel : nat) (buffer mask scratch : list Z) (L : Z) (output : list Z)
    (G N grp : Z) :
  1 <= N -> G * N + L <= 2 ^ 31 -> L <= Z.of_nat (length buffer) ->
  Forall (fun c => 0 <= c < 2 ^ 24) buffer -> G * N <= L ->
  N <= Z.of_nat (length scratch) -> G <= Z.of_nat (length output) ->
  (Z.to_nat L < fuel)%nat -> (33 <= fuel)%nat ->
  0 <= grp < G ->
  exists out groups v i,
    pir out_of_range fuel buffer mask scratch L output G N = Ok (out, groups) /\
    out !! Z.to_nat grp = Some v /\
    0 <= i < L /\ (i mod (G * N)) / N = grp /\
    buffer !! Z.to_nat i = Some v /\
    cells_min buffer <= v.
Proof.
  intros HN Hwrap Hbuf Hsmall Hbusy Hscr Hout Hfuel Hfuel' Hgrp.
  assert (HW : 1 <= G * N) by nia.
  assert (HN31 : N <= 2 ^ 31) by nia.
  set (stored := stored_of out_of_range buffer scratch L G N grp).
  assert (Hslot : forall j : nat, Z.of_nat j < N ->
            stored !!! j = cells_min (item_cells buffer L G N (grp * N + Z.of_nat j))).
  { intros j Hj. apply stored_of_slot with (fuel := fuel); first [assumption | lia]. }
  assert (Hitem : forall j : nat, Z.of_nat j < N ->
            0 <= cells_min (item_cells buffer L G N (grp * N + Z.of_nat j)) < 2 ^ 24).
  { intros j Hj. apply cells_min_small.
    - apply item_cells_small with (fuel := fuel); first [assumption | lia | nia].
    - apply item_cells_nonempty; nia. }
  assert (Hval : value_of out_of_range fuel buffer scratch L G N grp
                 = cells_min ((fun j => stored !!! j) <$> folded (chain fuel (N / 2)))).
  { unfold value_of, reduced_of, rounds_of. fold stored.
    apply reduce_min; [lia | assumption | | ].
    - subst stored. rewrite length_stored_of with (fuel := fuel);
        first [assumption | lia].
    - intros j Hj.
      pose proof (folded_below_group fuel N ltac:(lia) Hfuel' j Hj) as HjN.
      left. rewrite Hslot by assumption. now apply Hitem. }
  assert (Hslot0 : stored !!! 0%nat ∈
                     (fun j => stored !!! j) <$> folded (chain fuel (N / 2))).
  { apply list_elem_of_fmap. exists 0%nat. split; [reflexivity | ].
    apply folded_has_slot_0. }
  pose proof (cells_min_lower _ _ Hslot0) as Hle. rewrite <- Hval in Hle.
  rewrite Hslot in Hle by lia. pose proof (Hitem 0%nat ltac:(lia)) as H0.
  destruct (cells_min_attained
              ((fun j => stored !!! j) <$> folded (chain fuel (N / 2))))
    as [Hmax | Hin]; rewrite <- Hval in *; [unfold ULONG_MAX in Hmax; lia | ].
  apply list_elem_of_fmap in Hin as (j & Hvj & Hj).
  pose proof (folded_below_group fuel N ltac:(lia) Hfuel' j Hj) as HjN.
  rewrite Hslot in Hvj by assumption.
  pose proof (Hitem j HjN) as Hjr.
  destruct (cells_min_attained (item_cells buffer L G N (grp * N + Z.of_nat j)))
    as [Hmax | Hin]; [unfold ULONG_MAX in Hmax; lia | ].
  rewrite <- Hvj in Hin. unfold item_cells in Hin.
  apply list_elem_of_fmap in Hin as (i & Hvi & Hi).
  apply (elem_of_stride (G * N) L HW) in Hi as (q & Hq & -> & Hlt).
  destruct (lookup_lt_is_Some_2 buffer (Z.to_nat (grp * N + Z.of_nat j + q * (G * N))))
    as [c Hc]; [nia | ].
  rewrite (cell_at_lookup buffer _ c) in Hvi by (try exact Hc; nia).
  exists ((value_of out_of_range fuel buffer scratch L G N <$> seqZ 0 G)
            ++ drop (Z.to_nat G) output).
  exists (reduced_of out_of_range fuel buffer scratch L G N <$> seqZ 0 G).
  exists (value_of out_of_range fuel buffer scratch L G N grp).
  exists (grp * N + Z.of_nat j + q * (G * N)).
  split; [apply pir_spec; first [assumption | lia] | ].
  split.
  { rewrite lookup_app_l by (rewrite length_fmap, length_seqZ; lia).
    rewrite list_lookup_fmap, lookup_seqZ_lt by lia.
    cbn [fmap option_fmap option_map]. now rewrite Z.add_0_l, Z2Nat.id by lia. }
  split; [nia | ]. split.
  { rewrite Z_mod_plus_full, Z.mod_small by nia.
    rewrite Z.div_add_l, Z.div_small by lia. lia. }
  split; [now rewrite Hvi | ].
  apply cells_min_lower. rewrite Hvi. eapply list_elem_of_lookup_2, Hc.
Qed.

Lemma group_publishes_one_of_its_cells_witness :
  exists out groups v i,
    pir zeroing 40 [5; 3; 8; 1; 9; 2] [] [0; 0; 0] 6 [0; 0] 2 3 = Ok (out, groups) /\
    out !! Z.to_nat 1 = Some v /\
    0 <= i < 6 /\ (i mod (2 * 3)) / 3 = 1 /\
    [5; 3; 8; 1; 9; 2] !! Z.to_nat i = Some v /\
    cells_min [5; 3; 8; 1; 9; 2] <= v.
Proof.
  apply (group_publishes_one_of_its_cells zeroing 40 [5; 3; 8; 1; 9; 2] []
           [0; 0; 0] 6 [0; 0] 2 3 1); simpl; try lia.
  repeat constructor; lia.
Defined.
